(** * Ontology design-pattern validator: a shallow embedding

    Embedding of [src/semantico/pattern_validator.py] (class
    [PatternValidator]) and the properties of its six pattern checkers,
    of the genset matcher and of the result aggregator.

    The Python class keeps three input containers and two accumulator
    lists in [self]; the embedding threads that object explicitly through
    a small state monad.  Dictionaries built by the checkers are finite
    maps from string keys to Python values. *)

From Stdlib Require Import ZArith String List Lia.
From stdpp Require Import base option list strings gmap pretty.

Open Scope string_scope.
Open Scope list_scope.

(** ** Python values and built-ins *)

(** The values that occur in the dictionaries built by the validator. *)
Inductive pyval : Type :=
| VStr (s : string)
| VInt (z : Z)
| VList (l : list string).

#[global] Instance pyval_eq_dec : EqDecision pyval.
Proof. solve_decision. Defined.

(** A dictionary with string keys, as built by a dict display. *)
Definition dict (kvs : list (string * pyval)) : gmap string pyval :=
  list_to_map kvs.

(** [sep.join(l)] *)
Definition join (sep : string) (l : list string) : string :=
  String.concat sep l.

(** [sub in s] on two strings. *)
Definition str_contains (sub s : string) : bool :=
  match String.index 0 sub s with
  | Some _ => true
  | None => false
  end.

(** [x in v] where [x] is a string: substring test on a string,
    membership on a list, [TypeError] (here [None]) on an int. *)
Definition py_in (x : string) (v : pyval) : option bool :=
  match v with
  | VStr s => Some (str_contains x s)
  | VList l => Some (bool_decide (x ∈ l))
  | VInt _ => None
  end.

(** ** Input containers *)

(** A nested member of a class body; [member.get('stereotype')]. *)
Record Member : Type := mkMember {
  mem_stereotype : option string
}.

(** A class of the model.  [c['name']], [c['stereotype']] and [c['line']]
    are read with subscripts; [c.get('parents', [])] defaults to the empty
    list (an absent key is [[]] here) and [c.get('body')] may be absent. *)
Record ModelClass : Type := mkClass {
  cls_name : string;
  cls_stereotype : string;
  cls_parents : list string;
  cls_body : option (list Member);
  cls_line : Z
}.

(** A generalization set.  [genset.get('general')] may be absent;
    [genset.get('specifics', [])] and [genset.get('modifiers', [])] default
    to the empty list; [genset['name']] is read with a subscript. *)
Record Genset : Type := mkGenset {
  gs_name : string;
  gs_general : option string;
  gs_specifics : list string;
  gs_modifiers : list string
}.

(** A top-level relation.  [r.get('internal')] is only tested for truth;
    [r.get('stereotype')] may be absent. *)
Record Relation : Type := mkRelation {
  rel_internal : bool;
  rel_stereotype : option string
}.

#[global] Instance Member_eq_dec : EqDecision Member.
Proof. solve_decision. Defined.
#[global] Instance ModelClass_eq_dec : EqDecision ModelClass.
Proof. solve_decision. Defined.
#[global] Instance Genset_eq_dec : EqDecision Genset.
Proof. solve_decision. Defined.
#[global] Instance Relation_eq_dec : EqDecision Relation.
Proof. solve_decision. Defined.

(** The argument of the constructor: [analysis_data.get(key, [])]. *)
Record AnalysisData : Type := mkData {
  ad_classes : option (list ModelClass);
  ad_gensets : option (list Genset);
  ad_relations : option (list Relation)
}.

(** ** The validator object *)

(** One call of [_find_genset_for_classes], with its arguments after the
    [or []] defaults. *)
Record Query : Type := mkQuery {
  q_general : string;
  q_specifics : list string;
  q_required : list string;
  q_forbidden : list string
}.

(** The fields of [self].  [queries] is a ghost field, absent from the
    source: it records every call of [_find_genset_for_classes], so that
    "no lookup is attempted" can be stated. Nothing reads it. *)
Record PatternValidator : Type := mkPV {
  classes : list ModelClass;
  gensets : list Genset;
  relations : list Relation;
  complete_patterns : list (gmap string pyval);
  incomplete_patterns : list (gmap string pyval);
  queries : list Query
}.

(** [__init__] *)
Definition init (analysis_data : AnalysisData) : PatternValidator :=
  {| classes := default [] (ad_classes analysis_data);
     gensets := default [] (ad_gensets analysis_data);
     relations := default [] (ad_relations analysis_data);
     complete_patterns := [];
     incomplete_patterns := [];
     queries := [] |}.

(** ** State monad over [self] *)

Definition M (A : Type) : Type := PatternValidator → A * PatternValidator.

#[global] Instance M_ret : MRet M := λ A x self, (x, self).
#[global] Instance M_bind : MBind M := λ A B f m self,
  let '(x, self') := m self in f x self'.

Definition gets {A} (f : PatternValidator → A) : M A :=
  λ self, (f self, self).

(** [self.complete_patterns = l] *)
Definition set_complete_patterns (l : list (gmap string pyval)) : M unit :=
  λ self, (tt, {| classes := classes self; gensets := gensets self;
                  relations := relations self;
                  complete_patterns := l;
                  incomplete_patterns := incomplete_patterns self;
                  queries := queries self |}).

(** [self.incomplete_patterns = l] *)
Definition set_incomplete_patterns (l : list (gmap string pyval)) : M unit :=
  λ self, (tt, {| classes := classes self; gensets := gensets self;
                  relations := relations self;
                  complete_patterns := complete_patterns self;
                  incomplete_patterns := l;
                  queries := queries self |}).

(** [self.complete_patterns.append(p)] *)
Definition append_complete (p : gmap string pyval) : M unit :=
  l ← gets complete_patterns; set_complete_patterns (l ++ [p]).

(** [self.incomplete_patterns.append(p)] *)
Definition append_incomplete (p : gmap string pyval) : M unit :=
  l ← gets incomplete_patterns; set_incomplete_patterns (l ++ [p]).

(** Ghost: note one call of the matcher. *)
Definition log_query (q : Query) : M unit :=
  λ self, (tt, {| classes := classes self; gensets := gensets self;
                  relations := relations self;
                  complete_patterns := complete_patterns self;
                  incomplete_patterns := incomplete_patterns self;
                  queries := queries self ++ [q] |}).

(** [for x in l: body(x)] *)
Fixpoint for_each {A} (l : list A) (body : A → M unit) : M unit :=
  match l with
  | [] => mret tt
  | x :: l' => body x ;; for_each l' body
  end.

(** ** The genset matcher *)

(** The [for genset in self.gensets] loop of [_find_genset_for_classes];
    each [continue] goes on with the rest of the list. *)
Fixpoint find_genset_loop (gs : list Genset) (general_class : string)
    (specific_classes required_modifiers forbidden_modifiers : list string)
    : option Genset :=
  match gs with
  | [] => None
  | genset :: rest =>
    let continue := find_genset_loop rest general_class specific_classes
                      required_modifiers forbidden_modifiers in
    if bool_decide (gs_general genset ≠ Some general_class) then continue
    else
      let genset_specifics := gs_specifics genset in
      if negb (forallb (λ spec, bool_decide (spec ∈ genset_specifics))
                 specific_classes) then continue
      else
        let genset_modifiers := gs_modifiers genset in
        if negb (forallb (λ mod_, bool_decide (mod_ ∈ genset_modifiers))
                   required_modifiers) then continue
        else if existsb (λ mod_, bool_decide (mod_ ∈ genset_modifiers))
                  forbidden_modifiers then continue
        else Some genset
  end.

(** [_find_genset_for_classes]; the two modifier arguments default to
    [None] and are replaced by [[]] when falsy. *)
Definition _find_genset_for_classes (general_class : string)
    (specific_classes : list string)
    (required_modifiers forbidden_modifiers : option (list string))
    : M (option Genset) :=
  let required_modifiers := default [] required_modifiers in
  let forbidden_modifiers := default [] forbidden_modifiers in
  log_query (mkQuery general_class specific_classes
               required_modifiers forbidden_modifiers) ;;
  gs ← gets gensets;
  mret (find_genset_loop gs general_class specific_classes
          required_modifiers forbidden_modifiers).

(** ** The six pattern checkers *)

(** A genset returned by the matcher is a non-empty dictionary, so the test
    [if genset_found:] is the test against [None]. *)

(** Body of the [for kind in kinds] loop of [_validate_subkind_pattern]. *)
Definition _validate_subkind_pattern_body (kind : ModelClass) : M unit :=
  let kind_name := cls_name kind in
  cs ← gets classes;
  let subkinds :=
    filter (λ c, cls_stereotype c = "subkind" ∧ kind_name ∈ cls_parents c) cs in
  if decide (length subkinds < 2)%nat then mret tt
  else
    genset_found ← _find_genset_for_classes kind_name (cls_name <$> subkinds)
                     (Some ["disjoint"; "complete"]) None;
    match genset_found with
    | Some genset =>
      append_complete (dict [
        ("type", VStr "Subkind Pattern");
        ("kind", VStr kind_name);
        ("subkinds", VList (cls_name <$> subkinds));
        ("genset", VStr (gs_name genset));
        ("line", VInt (cls_line kind))])
    | None =>
      append_incomplete (dict [
        ("type", VStr "Subkind Pattern");
        ("kind", VStr kind_name);
        ("subkinds", VList (cls_name <$> subkinds));
        ("error", VStr "Falta genset disjoint complete");
        ("suggestion", VStr ("Adicione: disjoint complete genset " +:+ kind_name
           +:+ "_Genset { general " +:+ kind_name +:+ " specifics "
           +:+ join ", " (cls_name <$> subkinds) +:+ " }"));
        ("line", VInt (cls_line kind))])
    end.

Definition _validate_subkind_pattern : M unit :=
  cs ← gets classes;
  let kinds := filter (λ c, cls_stereotype c = "kind") cs in
  for_each kinds _validate_subkind_pattern_body.

(** Body of the [for kind in kinds] loop of [_validate_role_pattern]. *)
Definition _validate_role_pattern_body (kind : ModelClass) : M unit :=
  let kind_name := cls_name kind in
  cs ← gets classes;
  let roles :=
    filter (λ c, cls_stereotype c = "role" ∧ kind_name ∈ cls_parents c) cs in
  if decide (length roles < 2)%nat then mret tt
  else
    genset_found ← _find_genset_for_classes kind_name (cls_name <$> roles)
                     (Some ["complete"]) (Some ["disjoint"]);
    match genset_found with
    | Some genset =>
      append_complete (dict [
        ("type", VStr "Role Pattern");
        ("kind", VStr kind_name);
        ("roles", VList (cls_name <$> roles));
        ("genset", VStr (gs_name genset));
        ("line", VInt (cls_line kind))])
    | None =>
      append_incomplete (dict [
        ("type", VStr "Role Pattern");
        ("kind", VStr kind_name);
        ("roles", VList (cls_name <$> roles));
        ("error", VStr "Falta genset complete (sem disjoint)");
        ("suggestion", VStr ("Adicione: complete genset " +:+ kind_name
           +:+ "_Role_Genset { general " +:+ kind_name +:+ " specifics "
           +:+ join ", " (cls_name <$> roles) +:+ " }"));
        ("line", VInt (cls_line kind))])
    end.

Definition _validate_role_pattern : M unit :=
  cs ← gets classes;
  let kinds := filter (λ c, cls_stereotype c = "kind") cs in
  for_each kinds _validate_role_pattern_body.

(** Body of the [for kind in kinds] loop of [_validate_phase_pattern]. *)
Definition _validate_phase_pattern_body (kind : ModelClass) : M unit :=
  let kind_name := cls_name kind in
  cs ← gets classes;
  let phases :=
    filter (λ c, cls_stereotype c = "phase" ∧ kind_name ∈ cls_parents c) cs in
  if decide (length phases < 2)%nat then mret tt
  else
    genset_found ← _find_genset_for_classes kind_name (cls_name <$> phases)
                     (Some ["disjoint"]) None;
    match genset_found with
    | Some genset =>
      append_complete (dict [
        ("type", VStr "Phase Pattern");
        ("kind", VStr kind_name);
        ("phases", VList (cls_name <$> phases));
        ("genset", VStr (gs_name genset));
        ("line", VInt (cls_line kind))])
    | None =>
      append_incomplete (dict [
        ("type", VStr "Phase Pattern");
        ("kind", VStr kind_name);
        ("phases", VList (cls_name <$> phases));
        ("error", VStr "Falta genset disjoint (obrigatório para phases)");
        ("suggestion", VStr ("Adicione: disjoint complete genset " +:+ kind_name
           +:+ "_Phase_Genset { general " +:+ kind_name +:+ " specifics "
           +:+ join ", " (cls_name <$> phases) +:+ " }"));
        ("line", VInt (cls_line kind))])
    end.

Definition _validate_phase_pattern : M unit :=
  cs ← gets classes;
  let kinds := filter (λ c, cls_stereotype c = "kind") cs in
  for_each kinds _validate_phase_pattern_body.

(** [str(n)] for an int. *)
Definition str_int (z : Z) : string := pretty z.

(** The list [relator_mediations] built by the two nested loops of
    [_validate_relator_pattern]: for every element of [mediations], every
    member of the (truthy) body whose stereotype is 'mediation' is
    appended once more. *)
Definition relator_mediations_of (mediations : list Relation)
    (relator : ModelClass) : list Member :=
  flat_map (λ med : Relation,
    match cls_body relator with
    | Some ((_ :: _) as body) =>
        filter (λ member, mem_stereotype member = Some "mediation") body
    | _ => []
    end) mediations.

(** Body of the [for relator in relators] loop. *)
Definition _validate_relator_pattern_body (relator : ModelClass) : M unit :=
  let relator_name := cls_name relator in
  rs ← gets relations;
  let mediations :=
    filter (λ r, rel_internal r = true ∧ rel_stereotype r = Some "mediation") rs in
  let relator_mediations := relator_mediations_of mediations relator in
  if decide (2 ≤ length relator_mediations)%nat then
    append_complete (dict [
      ("type", VStr "Relator Pattern");
      ("relator", VStr relator_name);
      ("mediations", VInt (Z.of_nat (length relator_mediations)));
      ("line", VInt (cls_line relator))])
  else
    append_incomplete (dict [
      ("type", VStr "Relator Pattern");
      ("relator", VStr relator_name);
      ("mediations", VInt (Z.of_nat (length relator_mediations)));
      ("error", VStr ("Relator deve ter pelo menos 2 mediações (tem "
         +:+ str_int (Z.of_nat (length relator_mediations)) +:+ ")"));
      ("suggestion", VStr ("Adicione relações @mediation dentro do relator "
         +:+ relator_name));
      ("line", VInt (cls_line relator))]).

Definition _validate_relator_pattern : M unit :=
  cs ← gets classes;
  let relators := filter (λ c, cls_stereotype c = "relator") cs in
  for_each relators _validate_relator_pattern_body.

(** The two flags after the [for member in mode['body']] loop, started
    from [(has_characterization, has_external_dependence)]. *)
Definition mode_flags (body : list Member) (flags : bool * bool) : bool * bool :=
  foldl (λ '(has_characterization, has_external_dependence) member,
    (if decide (mem_stereotype member = Some "characterization")
     then true else has_characterization,
     if decide (mem_stereotype member = Some "externalDependence")
     then true else has_external_dependence)) flags body.

(** Body of the [for mode in modes] loop. *)
Definition _validate_mode_pattern_body (mode : ModelClass) : M unit :=
  let mode_name := cls_name mode in
  let '(has_characterization, has_external_dependence) :=
    match cls_body mode with
    | Some ((_ :: _) as body) => mode_flags body (false, false)
    | _ => (false, false)
    end in
  if has_characterization && has_external_dependence then
    append_complete (dict [
      ("type", VStr "Mode Pattern");
      ("mode", VStr mode_name);
      ("line", VInt (cls_line mode))])
  else
    let missing :=
      (if negb has_characterization then ["@characterization"] else []) ++
      (if negb has_external_dependence then ["@externalDependence"] else []) in
    append_incomplete (dict [
      ("type", VStr "Mode Pattern");
      ("mode", VStr mode_name);
      ("error", VStr ("Faltam relações: " +:+ join ", " missing));
      ("suggestion", VStr ("Adicione " +:+ join " e " missing
         +:+ " dentro do mode " +:+ mode_name));
      ("line", VInt (cls_line mode))]).

Definition _validate_mode_pattern : M unit :=
  cs ← gets classes;
  let modes := filter (λ c, cls_stereotype c = "mode") cs in
  for_each modes _validate_mode_pattern_body.

(** Body of the [for rolemixin in rolemixins] loop. *)
Definition _validate_rolemixin_pattern_body (rolemixin : ModelClass) : M unit :=
  let rolemixin_name := cls_name rolemixin in
  cs ← gets classes;
  let roles :=
    filter (λ c, cls_stereotype c = "role" ∧ rolemixin_name ∈ cls_parents c) cs in
  if decide (length roles < 2)%nat then
    append_incomplete (dict [
      ("type", VStr "RoleMixin Pattern");
      ("rolemixin", VStr rolemixin_name);
      ("error", VStr ("Precisa de pelo menos 2 roles especializando "
         +:+ rolemixin_name));
      ("suggestion", VStr ("Adicione roles que especializam " +:+ rolemixin_name));
      ("line", VInt (cls_line rolemixin))])
  else
    genset_found ← _find_genset_for_classes rolemixin_name (cls_name <$> roles)
                     (Some ["disjoint"; "complete"]) None;
    match genset_found with
    | Some genset =>
      append_complete (dict [
        ("type", VStr "RoleMixin Pattern");
        ("rolemixin", VStr rolemixin_name);
        ("roles", VList (cls_name <$> roles));
        ("genset", VStr (gs_name genset));
        ("line", VInt (cls_line rolemixin))])
    | None =>
      append_incomplete (dict [
        ("type", VStr "RoleMixin Pattern");
        ("rolemixin", VStr rolemixin_name);
        ("roles", VList (cls_name <$> roles));
        ("error", VStr "Falta genset disjoint complete");
        ("suggestion", VStr ("Adicione: disjoint complete genset "
           +:+ rolemixin_name +:+ "_Genset { general " +:+ rolemixin_name
           +:+ " specifics " +:+ join ", " (cls_name <$> roles) +:+ " }"));
        ("line", VInt (cls_line rolemixin))])
    end.

Definition _validate_rolemixin_pattern : M unit :=
  cs ← gets classes;
  let rolemixins := filter (λ c, cls_stereotype c = "roleMixin") cs in
  for_each rolemixins _validate_rolemixin_pattern_body.

(** ** The result aggregator *)

(** What [validate_all] returns: the dictionary with the two keys
    'complete' and 'incomplete'. *)
Record ValidationResult : Type := mkResult {
  complete : list (gmap string pyval);
  incomplete : list (gmap string pyval)
}.

Section Formatting.

(** Python's [repr] on a string and [str] on a dictionary are built-ins
  of the interpreter (quoting and escaping rules, key order); the
  formatter is parametric in them. *)
Variable repr_str : string → string.
Variable str_dict : gmap string pyval → string.

(** What an f-string field [{v}] renders: [str(v)]. *)
Definition py_str (v : pyval) : string :=
match v with
| VStr s => s
| VInt z => str_int z
| VList l => "[" +:+ join ", " (repr_str <$> l) +:+ "]"
end.

(** [_format_complete_pattern]; [None] is a raised [KeyError] or
  [TypeError]. *)
Definition _format_complete_pattern (pattern_data : gmap string pyval)
  : option (gmap string pyval) :=
pattern_type ← pattern_data !! "type";
let line := default (VStr "-") (pattern_data !! "line") in
details ← (
  is_subkind ← py_in "Subkind" pattern_type;
  if is_subkind : bool then
    kind ← pattern_data !! "kind";
    subkinds ← pattern_data !! "subkinds";
    genset ← pattern_data !! "genset";
    Some ("Kind '" +:+ py_str kind +:+ "' com subkinds " +:+ py_str subkinds
          +:+ " e genset '" +:+ py_str genset +:+ "'")
  else
  is_role ← py_in "Role" pattern_type;
  not_rolemixin ← (if is_role : bool
                   then negb <$> py_in "RoleMixin" pattern_type
                   else Some false);
  if not_rolemixin : bool then
    kind ← pattern_data !! "kind";
    roles ← pattern_data !! "roles";
    genset ← pattern_data !! "genset";
    Some ("Kind '" +:+ py_str kind +:+ "' com roles " +:+ py_str roles
          +:+ " e genset '" +:+ py_str genset +:+ "'")
  else
  is_phase ← py_in "Phase" pattern_type;
  if is_phase : bool then
    kind ← pattern_data !! "kind";
    phases ← pattern_data !! "phases";
    genset ← pattern_data !! "genset";
    Some ("Kind '" +:+ py_str kind +:+ "' com phases " +:+ py_str phases
          +:+ " e genset '" +:+ py_str genset +:+ "'")
  else
  is_relator ← py_in "Relator" pattern_type;
  if is_relator : bool then
    relator ← pattern_data !! "relator";
    mediations ← pattern_data !! "mediations";
    Some ("Relator '" +:+ py_str relator +:+ "' com " +:+ py_str mediations
          +:+ " mediações")
  else
  is_mode ← py_in "Mode" pattern_type;
  if is_mode : bool then
    mode ← pattern_data !! "mode";
    Some ("Mode '" +:+ py_str mode
          +:+ "' com @characterization e @externalDependence")
  else
  is_rolemixin ← py_in "RoleMixin" pattern_type;
  if is_rolemixin : bool then
    rolemixin ← pattern_data !! "rolemixin";
    roles ← pattern_data !! "roles";
    genset ← pattern_data !! "genset";
    Some ("RoleMixin '" +:+ py_str rolemixin +:+ "' com roles "
          +:+ py_str roles +:+ " e genset '" +:+ py_str genset +:+ "'")
  else Some (str_dict pattern_data));
Some (dict [("pattern", pattern_type);
            ("details", VStr details);
            ("line", line)]).

(** [_format_incomplete_pattern] *)
Definition _format_incomplete_pattern (pattern_data : gmap string pyval)
  : option (gmap string pyval) :=
type ← pattern_data !! "type";
error ← pattern_data !! "error";
suggestion ← pattern_data !! "suggestion";
Some (dict [("pattern", type);
            ("error", error);
            ("suggestion", suggestion);
            ("line", default (VStr "-") (pattern_data !! "line"))]).

(** [validate_all]; the result is [None] when a formatter raises. *)
Definition validate_all : M (option ValidationResult) :=
set_complete_patterns [] ;;
set_incomplete_patterns [] ;;
_validate_subkind_pattern ;;
_validate_role_pattern ;;
_validate_phase_pattern ;;
_validate_relator_pattern ;;
_validate_mode_pattern ;;
_validate_rolemixin_pattern ;;
cp ← gets complete_patterns;
ip ← gets incomplete_patterns;
mret (formatted_complete ← mapM _format_complete_pattern cp;
      formatted_incomplete ← mapM _format_incomplete_pattern ip;
      Some {| complete := formatted_complete;
              incomplete := formatted_incomplete |}).

End Formatting.

(** Dictionary keys must be hashable: strings and ints are, lists are not. *)
#[global] Instance pyval_countable : Countable pyval.
Proof.
  refine (inj_countable'
    (λ v, match v with
          | VStr s => inl s
          | VInt z => inr (inl z)
          | VList l => inr (inr l)
          end)
    (λ x, match x with
          | inl s => VStr s
          | inr (inl z) => VInt z
          | inr (inr l) => VList l
          end) _).
  by intros [].
Defined.

(** The loop of [_count_by_type], started from the dictionary [counts];
    [None] is a raised [KeyError] (no 'type') or [TypeError] (a list as
    key). *)
Fixpoint count_by_type_loop (patterns : list (gmap string pyval))
    (counts : gmap pyval nat) : option (gmap pyval nat) :=
  match patterns with
  | [] => Some counts
  | pattern :: rest =>
    ptype ← pattern !! "type";
    match ptype with
    | VList _ => None
    | _ => count_by_type_loop rest
             (<[ptype := (default 0 (counts !! ptype) + 1)%nat]> counts)
    end
  end.

Definition _count_by_type (patterns : list (gmap string pyval))
    : option (gmap pyval nat) :=
  count_by_type_loop patterns ∅.

(** What [get_summary] returns. *)
Record Summary : Type := mkSummary {
  total_complete : nat;
  total_incomplete : nat;
  complete_by_type : gmap pyval nat;
  incomplete_by_type : gmap pyval nat
}.

Definition get_summary : M (option Summary) :=
  cp ← gets complete_patterns;
  ip ← gets incomplete_patterns;
  mret (cbt ← _count_by_type cp;
        ibt ← _count_by_type ip;
        Some {| total_complete := length cp;
                total_incomplete := length ip;
                complete_by_type := cbt;
                incomplete_by_type := ibt |}).

(** * Reasoning about runs

    Every checker only reads the three input containers and only appends
    to the accumulators.  [emitted m self] is what a run of [m] from
    [self] appended; an [appender] is a computation whose run is exactly
    "append what it emits", and whose emission depends on the inputs
    alone. *)

Record Delta : Type := mkDelta {
  d_complete : list (gmap string pyval);
  d_incomplete : list (gmap string pyval);
  d_queries : list Query
}.

Definition dempty : Delta := mkDelta [] [] [].

Definition dapp (d1 d2 : Delta) : Delta :=
  mkDelta (d_complete d1 ++ d_complete d2)
          (d_incomplete d1 ++ d_incomplete d2)
          (d_queries d1 ++ d_queries d2).

Definition extend (self : PatternValidator) (d : Delta) : PatternValidator :=
  {| classes := classes self; gensets := gensets self;
     relations := relations self;
     complete_patterns := complete_patterns self ++ d_complete d;
     incomplete_patterns := incomplete_patterns self ++ d_incomplete d;
     queries := queries self ++ d_queries d |}.

Definition same_inputs (s s' : PatternValidator) : Prop :=
  classes s = classes s' ∧ gensets s = gensets s' ∧ relations s = relations s'.

(** The verdicts (and ghost queries) appended by a run of [m] from [self]. *)
Definition emitted_complete {A} (m : M A) (self : PatternValidator) :=
  drop (length (complete_patterns self)) (complete_patterns (m self).2).
Definition emitted_incomplete {A} (m : M A) (self : PatternValidator) :=
  drop (length (incomplete_patterns self)) (incomplete_patterns (m self).2).
Definition emitted_queries {A} (m : M A) (self : PatternValidator) :=
  drop (length (queries self)) (queries (m self).2).

Definition emitted {A} (m : M A) (self : PatternValidator) : Delta :=
  mkDelta (emitted_complete m self) (emitted_incomplete m self)
          (emitted_queries m self).

Definition appender {A} (m : M A) : Prop :=
  (∀ s, (m s).2 = extend s (emitted m s)) ∧
  (∀ s s', same_inputs s s' →
     emitted m s = emitted m s' ∧ (m s).1 = (m s').1).

Definition checker (stereotype : string) (body : ModelClass → M unit) : M unit :=
  cs ← gets classes;
  for_each (filter (λ c, cls_stereotype c = stereotype) cs) body.

(** ** The shared shape of the Subkind, Role and Phase checkers

    The three functions of the source differ in the constants collected
    here; each is convertible with the generic checker at its policy. *)

Record KindPolicy : Type := mkPolicy {
  kp_type : string;                      (* value of 'type' *)
  kp_specializer : string;               (* stereotype of the specializers *)
  kp_key : string;                       (* key holding the collected names *)
  kp_required : option (list string);    (* required_modifiers argument *)
  kp_forbidden : option (list string);   (* forbidden_modifiers argument *)
  kp_error : string;                     (* value of 'error' *)
  kp_modifiers_text : string;            (* modifiers written in the suggestion *)
  kp_genset_suffix : string              (* suffix of the suggested genset name *)
}.

Definition subkind_policy : KindPolicy :=
  mkPolicy "Subkind Pattern" "subkind" "subkinds"
    (Some ["disjoint"; "complete"]) None
    "Falta genset disjoint complete" "disjoint complete" "_Genset".

Definition role_policy : KindPolicy :=
  mkPolicy "Role Pattern" "role" "roles"
    (Some ["complete"]) (Some ["disjoint"])
    "Falta genset complete (sem disjoint)" "complete" "_Role_Genset".

Definition phase_policy : KindPolicy :=
  mkPolicy "Phase Pattern" "phase" "phases"
    (Some ["disjoint"]) None
    "Falta genset disjoint (obrigatório para phases)"
    "disjoint complete" "_Phase_Genset".

(** The classes of a stereotype that list [general] among their parents,
    in the order of [cs]. *)
Definition specializers (stereotype general : string) (cs : list ModelClass)
    : list ModelClass :=
  filter (λ c, cls_stereotype c = stereotype ∧ general ∈ cls_parents c) cs.

(** The suggestion text of an Incomplete verdict of the three checkers. *)
Definition suggestion_text (pol : KindPolicy) (kind_name : string)
    (names : list string) : string :=
  "Adicione: " +:+ kp_modifiers_text pol +:+ " genset " +:+ kind_name
  +:+ kp_genset_suffix pol +:+ " { general " +:+ kind_name +:+ " specifics "
  +:+ join ", " names +:+ " }".

Definition kind_complete_verdict (pol : KindPolicy) (kind : ModelClass)
    (names : list string) (genset : Genset) : gmap string pyval :=
  dict [("type", VStr (kp_type pol));
        ("kind", VStr (cls_name kind));
        (kp_key pol, VList names);
        ("genset", VStr (gs_name genset));
        ("line", VInt (cls_line kind))].

Definition kind_incomplete_verdict (pol : KindPolicy) (kind : ModelClass)
    (names : list string) : gmap string pyval :=
  dict [("type", VStr (kp_type pol));
        ("kind", VStr (cls_name kind));
        (kp_key pol, VList names);
        ("error", VStr (kp_error pol));
        ("suggestion", VStr (suggestion_text pol (cls_name kind) names));
        ("line", VInt (cls_line kind))].

Definition kind_pattern_body (pol : KindPolicy) (kind : ModelClass) : M unit :=
  cs ← gets classes;
  let names := cls_name <$> specializers (kp_specializer pol) (cls_name kind) cs in
  if decide (length (specializers (kp_specializer pol) (cls_name kind) cs) < 2)%nat
  then mret tt
  else
    genset_found ← _find_genset_for_classes (cls_name kind) names
                     (kp_required pol) (kp_forbidden pol);
    match genset_found with
    | Some genset => append_complete (kind_complete_verdict pol kind names genset)
    | None => append_incomplete (kind_incomplete_verdict pol kind names)
    end.

(** What the generic loop body appends, as a function of the inputs. *)
Definition kind_pattern_delta (pol : KindPolicy) (kind : ModelClass)
    (s : PatternValidator) : Delta :=
  let specs := specializers (kp_specializer pol) (cls_name kind) (classes s) in
  let names := cls_name <$> specs in
  if decide (length specs < 2)%nat then dempty
  else
    let required := default [] (kp_required pol) in
    let forbidden := default [] (kp_forbidden pol) in
    let q := mkQuery (cls_name kind) names required forbidden in
    match find_genset_loop (gensets s) (cls_name kind) names required forbidden with
    | Some genset => mkDelta [kind_complete_verdict pol kind names genset] [] [q]
    | None => mkDelta [] [kind_incomplete_verdict pol kind names] [q]
    end.

(** ** Runs of the Relator, Mode and RoleMixin loop bodies *)

Definition internal_mediations (rs : list Relation) : list Relation :=
  filter (λ r, rel_internal r = true ∧ rel_stereotype r = Some "mediation") rs.

(** The members of a body whose stereotype is 'mediation'. *)
Definition body_mediations (c : ModelClass) : list Member :=
  filter (λ member, mem_stereotype member = Some "mediation")
         (default [] (cls_body c)).

Definition relator_complete_verdict (relator : ModelClass) (n : nat)
    : gmap string pyval :=
  dict [("type", VStr "Relator Pattern");
        ("relator", VStr (cls_name relator));
        ("mediations", VInt (Z.of_nat n));
        ("line", VInt (cls_line relator))].

Definition relator_incomplete_verdict (relator : ModelClass) (n : nat)
    : gmap string pyval :=
  dict [("type", VStr "Relator Pattern");
        ("relator", VStr (cls_name relator));
        ("mediations", VInt (Z.of_nat n));
        ("error", VStr ("Relator deve ter pelo menos 2 mediações (tem "
           +:+ str_int (Z.of_nat n) +:+ ")"));
        ("suggestion", VStr ("Adicione relações @mediation dentro do relator "
           +:+ cls_name relator));
        ("line", VInt (cls_line relator))].

Definition relator_delta (relator : ModelClass) (s : PatternValidator) : Delta :=
  let n := length (relator_mediations_of (internal_mediations (relations s))
                     relator) in
  if decide (2 ≤ n)%nat
  then mkDelta [relator_complete_verdict relator n] [] []
  else mkDelta [] [relator_incomplete_verdict relator n] [].

(** The flags of the Mode checker after its scan of the body. *)
Definition mode_scan (mode : ModelClass) : bool * bool :=
  match cls_body mode with
  | Some ((_ :: _) as body) => mode_flags body (false, false)
  | _ => (false, false)
  end.

(** The list [missing] of the Mode checker. *)
Definition mode_missing (flags : bool * bool) : list string :=
  (if negb flags.1 then ["@characterization"] else []) ++
  (if negb flags.2 then ["@externalDependence"] else []).

Definition mode_complete_verdict (mode : ModelClass) : gmap string pyval :=
  dict [("type", VStr "Mode Pattern");
        ("mode", VStr (cls_name mode));
        ("line", VInt (cls_line mode))].

Definition mode_incomplete_verdict (mode : ModelClass) (missing : list string)
    : gmap string pyval :=
  dict [("type", VStr "Mode Pattern");
        ("mode", VStr (cls_name mode));
        ("error", VStr ("Faltam relações: " +:+ join ", " missing));
        ("suggestion", VStr ("Adicione " +:+ join " e " missing
           +:+ " dentro do mode " +:+ cls_name mode));
        ("line", VInt (cls_line mode))].

Definition mode_delta (mode : ModelClass) : Delta :=
  let flags := mode_scan mode in
  if flags.1 && flags.2
  then mkDelta [mode_complete_verdict mode] [] []
  else mkDelta [] [mode_incomplete_verdict mode (mode_missing flags)] [].

Definition rolemixin_few_verdict (rolemixin : ModelClass) : gmap string pyval :=
  dict [("type", VStr "RoleMixin Pattern");
        ("rolemixin", VStr (cls_name rolemixin));
        ("error", VStr ("Precisa de pelo menos 2 roles especializando "
           +:+ cls_name rolemixin));
        ("suggestion", VStr ("Adicione roles que especializam "
           +:+ cls_name rolemixin));
        ("line", VInt (cls_line rolemixin))].

Definition rolemixin_complete_verdict (rolemixin : ModelClass)
    (names : list string) (genset : Genset) : gmap string pyval :=
  dict [("type", VStr "RoleMixin Pattern");
        ("rolemixin", VStr (cls_name rolemixin));
        ("roles", VList names);
        ("genset", VStr (gs_name genset));
        ("line", VInt (cls_line rolemixin))].

(** The suggestion of the RoleMixin checker when no genset matches. *)
Definition rolemixin_genset_suggestion (name : string) (names : list string)
    : string :=
  "Adicione: disjoint complete genset " +:+ name +:+ "_Genset { general "
  +:+ name +:+ " specifics " +:+ join ", " names +:+ " }".

Definition rolemixin_incomplete_verdict (rolemixin : ModelClass)
    (names : list string) : gmap string pyval :=
  dict [("type", VStr "RoleMixin Pattern");
        ("rolemixin", VStr (cls_name rolemixin));
        ("roles", VList names);
        ("error", VStr "Falta genset disjoint complete");
        ("suggestion",
           VStr (rolemixin_genset_suggestion (cls_name rolemixin) names));
        ("line", VInt (cls_line rolemixin))].

Definition rolemixin_delta (rolemixin : ModelClass) (s : PatternValidator)
    : Delta :=
  let roles := specializers "role" (cls_name rolemixin) (classes s) in
  let names := cls_name <$> roles in
  if decide (length roles < 2)%nat
  then mkDelta [] [rolemixin_few_verdict rolemixin] []
  else
    let q := mkQuery (cls_name rolemixin) names ["disjoint"; "complete"] [] in
    match find_genset_loop (gensets s) (cls_name rolemixin) names
            ["disjoint"; "complete"] [] with
    | Some genset =>
        mkDelta [rolemixin_complete_verdict rolemixin names genset] [] [q]
    | None => mkDelta [] [rolemixin_incomplete_verdict rolemixin names] [q]
    end.

(** * The genset matcher *)

(** The four conditions of the matcher's contract, on sets of names:
    (a) same general class, (b) the genset's specifics include the given
    ones, (c) its modifiers include the required ones, (d) none of its
    modifiers is forbidden. *)
Definition qualifies (G : Genset) (generalClass : string)
    (specificClasses required forbidden : list string) : Prop :=
  gs_general G = Some generalClass ∧
  specificClasses ⊆ gs_specifics G ∧
  required ⊆ gs_modifiers G ∧
  (∀ m, m ∈ gs_modifiers G → m ∉ forbidden).

(** ** The three kind-based patterns, by name *)

Inductive KindPattern : Type := SubkindPattern | RolePattern | PhasePattern.

Definition policy (pat : KindPattern) : KindPolicy :=
  match pat with
  | SubkindPattern => subkind_policy
  | RolePattern => role_policy
  | PhasePattern => phase_policy
  end.

(** The checker of the source for each pattern, and its loop body. *)
Definition kind_checker (pat : KindPattern) : M unit :=
  match pat with
  | SubkindPattern => _validate_subkind_pattern
  | RolePattern => _validate_role_pattern
  | PhasePattern => _validate_phase_pattern
  end.

Definition kind_loop_body (pat : KindPattern) : ModelClass → M unit :=
  match pat with
  | SubkindPattern => _validate_subkind_pattern_body
  | RolePattern => _validate_role_pattern_body
  | PhasePattern => _validate_phase_pattern_body
  end.

(** The declaration template as the specification words it: the required
    modifiers, then [genset <Kind>_Genset { general <Kind> specifics
    <name1>, <name2>, ... }]. *)
Definition spec_template (required : list string) (kind : string)
    (names : list string) : string :=
  join " " required +:+ " genset " +:+ kind +:+ "_Genset { general " +:+ kind
  +:+ " specifics " +:+ join ", " names +:+ " }".

(** Whether the body of a class has a member of the given stereotype. *)
Definition has_member (stereotype : string) (c : ModelClass) : bool :=
  existsb (λ member, bool_decide (mem_stereotype member = Some stereotype))
          (default [] (cls_body c)).

(** ** The six checkers in sequence, and the two formatting passes *)

(** The validator after the two assignments that open [validate_all]. *)
Definition reset (self : PatternValidator) : PatternValidator :=
  {| classes := classes self; gensets := gensets self;
     relations := relations self;
     complete_patterns := [];
     incomplete_patterns := [];
     queries := queries self |}.

(** The six calls of [validate_all], in its order. *)
Definition run_checkers : M unit :=
  _validate_subkind_pattern ;;
  _validate_role_pattern ;;
  _validate_phase_pattern ;;
  _validate_relator_pattern ;;
  _validate_mode_pattern ;;
  _validate_rolemixin_pattern.

(** The two list comprehensions that close [validate_all], and the
    dictionary it returns. *)
Definition format_results (repr_str : string → string)
    (str_dict : gmap string pyval → string) (self : PatternValidator)
    : option ValidationResult :=
  formatted_complete ←
    mapM (_format_complete_pattern repr_str str_dict) (complete_patterns self);
  formatted_incomplete ←
    mapM _format_incomplete_pattern (incomplete_patterns self);
  Some {| complete := formatted_complete; incomplete := formatted_incomplete |}.

(** The shapes of the verdicts that the six checkers build. *)
Inductive complete_shape : gmap string pyval → Prop :=
| shape_kind_complete pat c names g :
    complete_shape (kind_complete_verdict (policy pat) c names g)
| shape_relator_complete c n :
    complete_shape (relator_complete_verdict c n)
| shape_mode_complete c :
    complete_shape (mode_complete_verdict c)
| shape_rolemixin_complete c names g :
    complete_shape (rolemixin_complete_verdict c names g).

Inductive incomplete_shape : gmap string pyval → Prop :=
| shape_kind_incomplete pat c names :
    incomplete_shape (kind_incomplete_verdict (policy pat) c names)
| shape_relator_incomplete c n :
    incomplete_shape (relator_incomplete_verdict c n)
| shape_mode_incomplete c missing :
    incomplete_shape (mode_incomplete_verdict c missing)
| shape_rolemixin_few c :
    incomplete_shape (rolemixin_few_verdict c)
| shape_rolemixin_incomplete c names :
    incomplete_shape (rolemixin_incomplete_verdict c names).

(** ** Tallies *)

(** The sum of the counts held by a dictionary of counts. *)
Definition sum_counts (m : gmap pyval nat) : nat :=
  map_fold (λ _ n acc, (n + acc)%nat) 0%nat m.

(** The number of verdicts of a sequence whose 'type' is [t]. *)
Definition type_count (t : pyval) (patterns : list (gmap string pyval)) : nat :=
  length (filter (λ p, p !! "type" = Some t) patterns).

(** A verdict whose 'type' is present and is a string. *)
Definition has_str_type (p : gmap string pyval) : Prop :=
  ∃ t, p !! "type" = Some (VStr t).



(** A verdict whose 'type' can be a dictionary key: present, and a string
    or an int (a list is unhashable). *)
Definition hashable_type (p : gmap string pyval) : Prop :=
  ∃ t, p !! "type" = Some t ∧ ∀ l, t ≠ VList l.

Lemma dapp_empty_l d : dapp dempty d = d.
Proof. by destruct d. Qed.

Lemma dapp_empty_r d : dapp d dempty = d.
Proof. destruct d. unfold dapp; simpl. by rewrite !app_nil_r. Qed.

Lemma dapp_assoc d1 d2 d3 : dapp (dapp d1 d2) d3 = dapp d1 (dapp d2 d3).
Proof. unfold dapp; simpl. by rewrite <- !app_assoc. Qed.

Lemma extend_empty s : extend s dempty = s.
Proof. destruct s. unfold extend; simpl. by rewrite !app_nil_r. Qed.

Lemma extend_extend s d1 d2 : extend (extend s d1) d2 = extend s (dapp d1 d2).
Proof. unfold extend, dapp; simpl. by rewrite <- !app_assoc. Qed.

Lemma same_inputs_refl s : same_inputs s s.
Proof. by repeat split. Qed.

Lemma same_inputs_sym s s' : same_inputs s s' → same_inputs s' s.
Proof. intros (?&?&?). by repeat split. Qed.

Lemma same_inputs_trans s1 s2 s3 :
  same_inputs s1 s2 → same_inputs s2 s3 → same_inputs s1 s3.
Proof. intros (?&?&?) (?&?&?). repeat split; congruence. Qed.

Lemma same_inputs_extend s d : same_inputs s (extend s d).
Proof. by repeat split. Qed.

(** A run that is known to be an extension emits that extension. *)
Lemma emitted_of_extend {A} (m : M A) s d :
  (m s).2 = extend s d → emitted m s = d.
Proof.
  intros H. unfold emitted, emitted_complete, emitted_incomplete, emitted_queries.
  rewrite H. simpl. rewrite !drop_app_length. by destruct d.
Qed.

Lemma appender_intro {A} (m : M A) (f : PatternValidator → Delta)
    (r : PatternValidator → A) :
  (∀ s, m s = (r s, extend s (f s))) →
  (∀ s s', same_inputs s s' → f s = f s' ∧ r s = r s') →
  appender m ∧ (∀ s, emitted m s = f s) ∧ (∀ s, (m s).1 = r s).
Proof.
  intros Hrun Hf.
  assert (Hem : ∀ s, emitted m s = f s).
  { intros s. apply emitted_of_extend. by rewrite Hrun. }
  split; [split|split]; try done.
  - intros s. by rewrite Hem, Hrun.
  - intros s s' Hs. rewrite !Hem, !Hrun. simpl. by apply Hf.
  - intros s. by rewrite Hrun.
Qed.

Lemma appender_run {A} (m : M A) s :
  appender m → m s = ((m s).1, extend s (emitted m s)).
Proof. intros [H _]. rewrite <- H. by destruct (m s). Qed.

(** Sequencing. *)
Lemma emitted_bind {A B} (m : M A) (k : A → M B) s :
  appender m → (∀ a, appender (k a)) →
  emitted (m ≫= k) s = dapp (emitted m s) (emitted (k (m s).1) s).
Proof.
  intros Hm Hk. apply emitted_of_extend.
  unfold mbind, M_bind. rewrite (appender_run m s Hm).
  rewrite (proj1 (Hk _)), extend_extend. simpl. do 2 f_equal.
  symmetry. apply (Hk (m s).1), same_inputs_extend.
Qed.

Lemma result_bind {A B} (m : M A) (k : A → M B) s :
  appender m → (∀ a, appender (k a)) →
  ((m ≫= k) s).1 = (k (m s).1 s).1.
Proof.
  intros Hm Hk. unfold mbind, M_bind. rewrite (appender_run m s Hm).
  symmetry. apply (Hk (m s).1), same_inputs_extend.
Qed.

Lemma appender_bind {A B} (m : M A) (k : A → M B) :
  appender m → (∀ a, appender (k a)) → appender (m ≫= k).
Proof.
  intros Hm Hk. split.
  - intros s. rewrite emitted_bind by done.
    unfold mbind, M_bind. rewrite (appender_run m s Hm).
    rewrite (proj1 (Hk _)), extend_extend. do 2 f_equal.
    apply (Hk (m s).1), same_inputs_sym, same_inputs_extend.
  - intros s s' Hs. rewrite !emitted_bind, !result_bind by done.
    destruct (proj2 Hm s s' Hs) as [-> ->].
    destruct (proj2 (Hk (m s').1) s s' Hs) as [-> ->]. done.
Qed.

Lemma appender_ret {A} (x : A) : appender (mret x : M A).
Proof.
  apply (appender_intro _ (λ _, dempty) (λ _, x)); [|done].
  intros s. unfold mret, M_ret. by rewrite extend_empty.
Qed.

Lemma appender_gets {A} (f : PatternValidator → A) :
  (∀ s s', same_inputs s s' → f s = f s') → appender (gets f).
Proof.
  intros Hf. apply (appender_intro _ (λ _, dempty) f).
  - intros s. unfold gets. by rewrite extend_empty.
  - intros s s' Hs. split; [done|by apply Hf].
Qed.

Lemma appender_append_complete p : appender (append_complete p).
Proof.
  apply (appender_intro _ (λ _, mkDelta [p] [] []) (λ _, tt)); [|done].
  intros s. unfold extend; simpl. by rewrite !app_nil_r.
Qed.

Lemma appender_append_incomplete p : appender (append_incomplete p).
Proof.
  apply (appender_intro _ (λ _, mkDelta [] [p] []) (λ _, tt)); [|done].
  intros s. unfold extend; simpl. by rewrite !app_nil_r.
Qed.

Lemma appender_log_query q : appender (log_query q).
Proof.
  apply (appender_intro _ (λ _, mkDelta [] [] [q]) (λ _, tt)); [|done].
  intros s. unfold extend; simpl. by rewrite !app_nil_r.
Qed.

Lemma appender_gets_classes : appender (gets classes).
Proof. apply appender_gets. by intros s s' (?&?&?). Qed.

Lemma appender_gets_gensets : appender (gets gensets).
Proof. apply appender_gets. by intros s s' (?&?&?). Qed.

Lemma appender_gets_relations : appender (gets relations).
Proof. apply appender_gets. by intros s s' (?&?&?). Qed.

Lemma appender_find_genset gc sc req forb :
  appender (_find_genset_for_classes gc sc req forb).
Proof.
  unfold _find_genset_for_classes.
  apply appender_bind; [apply appender_log_query|intros _].
  apply appender_bind; [apply appender_gets_gensets|intros gs].
  apply appender_ret.
Qed.

Lemma appender_for_each {A} (body : A → M unit) l :
  (∀ a, appender (body a)) → appender (for_each l body).
Proof.
  intros Hb. induction l as [|a l IH]; simpl.
  - apply appender_ret.
  - by apply appender_bind.
Qed.

Lemma emitted_for_each {A} (body : A → M unit) l s :
  (∀ a, appender (body a)) →
  emitted (for_each l body) s =
    foldr (λ a d, dapp (emitted (body a) s) d) dempty l.
Proof.
  intros Hb. induction l as [|a l IH]; simpl.
  - apply emitted_of_extend. unfold mret, M_ret; simpl. by rewrite extend_empty.
  - rewrite emitted_bind; [by rewrite IH|done|].
    intros _. by apply appender_for_each.
Qed.

Lemma appender_checker stereotype body :
  (∀ c, appender (body c)) → appender (checker stereotype body).
Proof.
  intros Hb. unfold checker.
  apply appender_bind; [apply appender_gets_classes|intros cs].
  by apply appender_for_each.
Qed.

Lemma emitted_checker stereotype body s :
  (∀ c, appender (body c)) →
  emitted (checker stereotype body) s =
    foldr (λ c d, dapp (emitted (body c) s) d) dempty
          (filter (λ c, cls_stereotype c = stereotype) (classes s)).
Proof.
  intros Hb. unfold checker.
  rewrite emitted_bind;
    [|apply appender_gets_classes|intros; by apply appender_for_each].
  rewrite emitted_for_each by done.
  rewrite (emitted_of_extend (gets classes) s dempty), dapp_empty_l; [done|].
  unfold gets; simpl. by rewrite extend_empty.
Qed.

Lemma elem_of_foldr_dapp_complete {A} (f : A → Delta) l p :
  p ∈ d_complete (foldr (λ a d, dapp (f a) d) dempty l) ↔
  ∃ a, a ∈ l ∧ p ∈ d_complete (f a).
Proof.
  induction l as [|a l IH]; simpl.
  - split; [by intros ?%elem_of_nil|by intros (?&?%elem_of_nil&?)].
  - rewrite elem_of_app, IH. split.
    + intros [?|(b&?&?)]; [exists a|exists b]; split; try done; by constructor.
    + intros (b&[->|?]%elem_of_cons&?); [by left|right; by exists b].
Qed.

Lemma elem_of_foldr_dapp_incomplete {A} (f : A → Delta) l p :
  p ∈ d_incomplete (foldr (λ a d, dapp (f a) d) dempty l) ↔
  ∃ a, a ∈ l ∧ p ∈ d_incomplete (f a).
Proof.
  induction l as [|a l IH]; simpl.
  - split; [by intros ?%elem_of_nil|by intros (?&?%elem_of_nil&?)].
  - rewrite elem_of_app, IH. split.
    + intros [?|(b&?&?)]; [exists a|exists b]; split; try done; by constructor.
    + intros (b&[->|?]%elem_of_cons&?); [by left|right; by exists b].
Qed.

Lemma elem_of_foldr_dapp_queries {A} (f : A → Delta) l q :
  q ∈ d_queries (foldr (λ a d, dapp (f a) d) dempty l) ↔
  ∃ a, a ∈ l ∧ q ∈ d_queries (f a).
Proof.
  induction l as [|a l IH]; simpl.
  - split; [by intros ?%elem_of_nil|by intros (?&?%elem_of_nil&?)].
  - rewrite elem_of_app, IH. split.
    + intros [?|(b&?&?)]; [exists a|exists b]; split; try done; by constructor.
    + intros (b&[->|?]%elem_of_cons&?); [by left|right; by exists b].
Qed.

(** What a checker emits is what its loop body emits on the classes of
    its stereotype. *)
Lemma checker_emitted_complete stereotype body s p :
  (∀ c, appender (body c)) →
  p ∈ emitted_complete (checker stereotype body) s ↔
  ∃ c, c ∈ classes s ∧ cls_stereotype c = stereotype ∧
       p ∈ emitted_complete (body c) s.
Proof.
  intros Hb.
  change (emitted_complete (checker stereotype body) s)
    with (d_complete (emitted (checker stereotype body) s)).
  rewrite emitted_checker, elem_of_foldr_dapp_complete by done.
  split; [intros (c&Hc&?)|intros (c&Hc&Hst&?)]; exists c.
  - by apply list_elem_of_filter in Hc as [? ?].
  - split; [by apply list_elem_of_filter|done].
Qed.

Lemma checker_emitted_incomplete stereotype body s p :
  (∀ c, appender (body c)) →
  p ∈ emitted_incomplete (checker stereotype body) s ↔
  ∃ c, c ∈ classes s ∧ cls_stereotype c = stereotype ∧
       p ∈ emitted_incomplete (body c) s.
Proof.
  intros Hb.
  change (emitted_incomplete (checker stereotype body) s)
    with (d_incomplete (emitted (checker stereotype body) s)).
  rewrite emitted_checker, elem_of_foldr_dapp_incomplete by done.
  split; [intros (c&Hc&?)|intros (c&Hc&Hst&?)]; exists c.
  - by apply list_elem_of_filter in Hc as [? ?].
  - split; [by apply list_elem_of_filter|done].
Qed.

Lemma checker_emitted_queries stereotype body s q :
  (∀ c, appender (body c)) →
  q ∈ emitted_queries (checker stereotype body) s ↔
  ∃ c, c ∈ classes s ∧ cls_stereotype c = stereotype ∧
       q ∈ emitted_queries (body c) s.
Proof.
  intros Hb.
  change (emitted_queries (checker stereotype body) s)
    with (d_queries (emitted (checker stereotype body) s)).
  rewrite emitted_checker, elem_of_foldr_dapp_queries by done.
  split; [intros (c&Hc&?)|intros (c&Hc&Hst&?)]; exists c.
  - by apply list_elem_of_filter in Hc as [? ?].
  - split; [by apply list_elem_of_filter|done].
Qed.

Lemma subkind_body_generic :
  _validate_subkind_pattern_body = kind_pattern_body subkind_policy.
Proof. reflexivity. Qed.

Lemma role_body_generic :
  _validate_role_pattern_body = kind_pattern_body role_policy.
Proof. reflexivity. Qed.

Lemma phase_body_generic :
  _validate_phase_pattern_body = kind_pattern_body phase_policy.
Proof. reflexivity. Qed.

Lemma subkind_checker_generic :
  _validate_subkind_pattern = checker "kind" (kind_pattern_body subkind_policy).
Proof. reflexivity. Qed.

Lemma role_checker_generic :
  _validate_role_pattern = checker "kind" (kind_pattern_body role_policy).
Proof. reflexivity. Qed.

Lemma phase_checker_generic :
  _validate_phase_pattern = checker "kind" (kind_pattern_body phase_policy).
Proof. reflexivity. Qed.

Lemma relator_checker_generic :
  _validate_relator_pattern = checker "relator" _validate_relator_pattern_body.
Proof. reflexivity. Qed.

Lemma mode_checker_generic :
  _validate_mode_pattern = checker "mode" _validate_mode_pattern_body.
Proof. reflexivity. Qed.

Lemma rolemixin_checker_generic :
  _validate_rolemixin_pattern =
  checker "roleMixin" _validate_rolemixin_pattern_body.
Proof. reflexivity. Qed.

Lemma kind_pattern_body_run pol kind s :
  kind_pattern_body pol kind s = (tt, extend s (kind_pattern_delta pol kind s)).
Proof.
  unfold kind_pattern_body, kind_pattern_delta.
  unfold mbind, M_bind, gets; simpl.
  destruct (decide _) as [Hlt|Hge].
  - unfold mret, M_ret. by rewrite extend_empty.
  - unfold _find_genset_for_classes, mbind, M_bind, gets, mret, M_ret; simpl.
    destruct (find_genset_loop _ _ _ _ _); unfold extend; simpl;
      by rewrite !app_nil_r.
Qed.

Lemma kind_pattern_delta_inputs pol kind s s' :
  same_inputs s s' → kind_pattern_delta pol kind s = kind_pattern_delta pol kind s'.
Proof. intros (Hc&Hg&_). unfold kind_pattern_delta. by rewrite Hc, Hg. Qed.

Lemma kind_pattern_body_facts pol kind :
  appender (kind_pattern_body pol kind) ∧
  (∀ s, emitted (kind_pattern_body pol kind) s = kind_pattern_delta pol kind s).
Proof.
  destruct (appender_intro (kind_pattern_body pol kind)
              (kind_pattern_delta pol kind) (λ _, tt)) as (?&?&?); [| |done].
  - apply kind_pattern_body_run.
  - intros s s' Hs. split; [by apply kind_pattern_delta_inputs|done].
Qed.

Lemma appender_kind_pattern_body pol kind : appender (kind_pattern_body pol kind).
Proof. apply kind_pattern_body_facts. Qed.

Lemma emitted_kind_pattern_body pol kind s :
  emitted (kind_pattern_body pol kind) s = kind_pattern_delta pol kind s.
Proof. apply kind_pattern_body_facts. Qed.

Lemma relator_body_run relator s :
  _validate_relator_pattern_body relator s = (tt, extend s (relator_delta relator s)).
Proof.
  unfold _validate_relator_pattern_body, relator_delta, internal_mediations.
  unfold mbind, M_bind, gets; simpl.
  destruct (decide _); unfold extend; simpl; by rewrite !app_nil_r.
Qed.

Lemma relator_body_facts relator :
  appender (_validate_relator_pattern_body relator) ∧
  (∀ s, emitted (_validate_relator_pattern_body relator) s = relator_delta relator s).
Proof.
  destruct (appender_intro (_validate_relator_pattern_body relator)
              (relator_delta relator) (λ _, tt)) as (?&?&?); [| |done].
  - apply relator_body_run.
  - intros s s' (_&_&Hr). unfold relator_delta. by rewrite Hr.
Qed.

Lemma mode_body_run mode s :
  _validate_mode_pattern_body mode s = (tt, extend s (mode_delta mode)).
Proof.
  unfold _validate_mode_pattern_body, mode_delta, mode_scan, mode_missing.
  destruct (match cls_body mode with Some ((_ :: _) as body) => _ | _ => _ end)
    as [[] []]; unfold extend; simpl; by rewrite !app_nil_r.
Qed.

Lemma mode_body_facts mode :
  appender (_validate_mode_pattern_body mode) ∧
  (∀ s, emitted (_validate_mode_pattern_body mode) s = mode_delta mode).
Proof.
  destruct (appender_intro (_validate_mode_pattern_body mode)
              (λ _, mode_delta mode) (λ _, tt)) as (?&?&?); [| |done].
  - apply mode_body_run.
  - done.
Qed.

Lemma rolemixin_body_run rolemixin s :
  _validate_rolemixin_pattern_body rolemixin s =
  (tt, extend s (rolemixin_delta rolemixin s)).
Proof.
  unfold _validate_rolemixin_pattern_body, rolemixin_delta, specializers.
  unfold mbind, M_bind, gets; simpl.
  destruct (decide _) as [Hlt|Hge].
  - unfold extend; simpl; by rewrite !app_nil_r.
  - unfold _find_genset_for_classes, mbind, M_bind, gets, mret, M_ret; simpl.
    destruct (find_genset_loop _ _ _ _ _); unfold extend; simpl;
      by rewrite !app_nil_r.
Qed.

Lemma rolemixin_body_facts rolemixin :
  appender (_validate_rolemixin_pattern_body rolemixin) ∧
  (∀ s, emitted (_validate_rolemixin_pattern_body rolemixin) s =
        rolemixin_delta rolemixin s).
Proof.
  destruct (appender_intro (_validate_rolemixin_pattern_body rolemixin)
              (rolemixin_delta rolemixin) (λ _, tt)) as (?&?&?); [| |done].
  - apply rolemixin_body_run.
  - intros s s' (Hc&Hg&_). unfold rolemixin_delta. by rewrite Hc, Hg.
Qed.

Lemma forallb_elem_of (l l' : list string) :
  forallb (λ x, bool_decide (x ∈ l')) l = true ↔ l ⊆ l'.
Proof.
  rewrite forallb_forall. split.
  - intros H x Hx. apply list_elem_of_In, H in Hx. by apply bool_decide_eq_true in Hx.
  - intros H x Hx. apply bool_decide_eq_true, H. by apply list_elem_of_In.
Qed.

Lemma existsb_elem_of (l l' : list string) :
  existsb (λ x, bool_decide (x ∈ l')) l = false ↔ (∀ m, m ∈ l' → m ∉ l).
Proof.
  split.
  - intros H m Hm Hin.
    assert (existsb (λ x, bool_decide (x ∈ l')) l = true); [|congruence].
    apply existsb_exists. exists m. split; [by apply list_elem_of_In|].
    by apply bool_decide_eq_true.
  - intros H. destruct (existsb _ l) eqn:E; [|done].
    apply existsb_exists in E as (m&Hin&Hm).
    apply bool_decide_eq_true in Hm. apply list_elem_of_In in Hin.
    by destruct (H m).
Qed.

Lemma qualifies_or_not g gc sc req forb :
  qualifies g gc sc req forb ∨ ¬ qualifies g gc sc req forb.
Proof.
  destruct (decide (gs_general g = Some gc)) as [Hg|Hg];
    [|right; by intros (?&_)].
  destruct (forallb (λ x, bool_decide (x ∈ gs_specifics g)) sc) eqn:Hs.
  2: { right. intros (_&H%forallb_elem_of&_). congruence. }
  destruct (forallb (λ x, bool_decide (x ∈ gs_modifiers g)) req) eqn:Hr.
  2: { right. intros (_&_&H%forallb_elem_of&_). congruence. }
  destruct (existsb (λ x, bool_decide (x ∈ gs_modifiers g)) forb) eqn:Hf.
  { right. intros (_&_&_&H%existsb_elem_of). congruence. }
  left. repeat split; try done.
  - by apply forallb_elem_of.
  - by apply forallb_elem_of.
  - by apply existsb_elem_of.
Qed.

Lemma find_genset_loop_hit g rest gc sc req forb :
  qualifies g gc sc req forb →
  find_genset_loop (g :: rest) gc sc req forb = Some g.
Proof.
  intros (Hg&Hs&Hr&Hf). simpl.
  rewrite bool_decide_eq_false_2 by (by intros ?).
  apply forallb_elem_of in Hs as ->. apply forallb_elem_of in Hr as ->.
  apply existsb_elem_of in Hf as ->. done.
Qed.

Lemma find_genset_loop_miss g rest gc sc req forb :
  ¬ qualifies g gc sc req forb →
  find_genset_loop (g :: rest) gc sc req forb =
  find_genset_loop rest gc sc req forb.
Proof.
  intros Hn. simpl.
  case_bool_decide as Hg; [done|].
  destruct (forallb _ sc) eqn:Hs; [|done].
  destruct (forallb _ req) eqn:Hr; [|done].
  destruct (existsb _ forb) eqn:Hf; [done|].
  destruct Hn. split; [|split; [|split]].
  - destruct (decide (gs_general g = Some gc)); [done|by destruct Hg].
  - by apply forallb_elem_of.
  - by apply forallb_elem_of.
  - by apply existsb_elem_of.
Qed.

Lemma find_genset_loop_some gs gc sc req forb G :
  find_genset_loop gs gc sc req forb = Some G ↔
  ∃ pre post, gs = pre ++ G :: post ∧ qualifies G gc sc req forb ∧
              Forall (λ G', ¬ qualifies G' gc sc req forb) pre.
Proof.
  induction gs as [|g rest IH].
  - split; [done|]. intros (pre&post&H&_). by destruct pre.
  - destruct (qualifies_or_not g gc sc req forb) as [Hq|Hq].
    + rewrite find_genset_loop_hit by done. split.
      * intros [= <-]. exists [], rest. split; [done|]. split; [done|constructor].
      * intros (pre&post&Heq&HG&Hpre). destruct pre as [|g' pre];
          simpl in Heq; injection Heq as <- Heq; [done|].
        by apply Forall_cons in Hpre as [? _].
    + rewrite find_genset_loop_miss, IH by done. split.
      * intros (pre&post&->&HG&Hpre). exists (g :: pre), post.
        split; [done|]. split; [done|by constructor].
      * intros (pre&post&Heq&HG&Hpre). destruct pre as [|g' pre];
          simpl in Heq; injection Heq as <- Heq; [done|].
        apply Forall_cons in Hpre as [_ ?]. by exists pre, post.
Qed.

Lemma find_genset_loop_none gs gc sc req forb :
  find_genset_loop gs gc sc req forb = None ↔
  Forall (λ G, ¬ qualifies G gc sc req forb) gs.
Proof.
  induction gs as [|g rest IH].
  - split; [constructor|done].
  - destruct (qualifies_or_not g gc sc req forb) as [Hq|Hq].
    + rewrite find_genset_loop_hit by done. split; [done|].
      by intros [? _]%Forall_cons.
    + rewrite find_genset_loop_miss, IH by done. split.
      * by constructor.
      * by intros [_ ?]%Forall_cons.
Qed.

Lemma find_genset_result gc sc req forb s :
  (_find_genset_for_classes gc sc req forb s).1 =
  find_genset_loop (gensets s) gc sc (default [] req) (default [] forb).
Proof. reflexivity. Qed.

(** C2.  For every model and every query, the matcher returns [G] exactly
    when [G] is the first genset, in declaration order, that satisfies the
    four conditions (same general class, specifics include the queried
    ones, modifiers include the required ones, no forbidden modifier); it
    returns [None] exactly when no genset satisfies them. *)
Theorem find_genset_first_qualifying
    (s : PatternValidator) (generalClass : string)
    (specificClasses : list string) (required forbidden : option (list string)) :
  let result :=
    (_find_genset_for_classes generalClass specificClasses required forbidden s).1 in
  let Q := λ G, qualifies G generalClass specificClasses
                  (default [] required) (default [] forbidden) in
  (∀ G, result = Some G ↔
        ∃ before after, gensets s = before ++ G :: after ∧ Q G ∧
                        Forall (λ G', ¬ Q G') before) ∧
  (result = None ↔ Forall (λ G, ¬ Q G) (gensets s)).
Proof.
  intros result Q. subst result Q. rewrite find_genset_result. split.
  - intros G. apply find_genset_loop_some.
  - apply find_genset_loop_none.
Qed.


(** * The Relator checker *)

Lemma relator_mediations_length ms relator :
  length (relator_mediations_of ms relator) =
  (length ms * length (body_mediations relator))%nat.
Proof.
  unfold relator_mediations_of, body_mediations.
  induction ms as [|med ms IH]; [done|].
  simpl. rewrite length_app, IH. f_equal.
  by destruct (cls_body relator) as [[|]|].
Qed.

Lemma relator_checker_emits s relator :
  relator ∈ classes s → cls_stereotype relator = "relator" →
  let n := length (relator_mediations_of (internal_mediations (relations s))
                     relator) in
  if decide (2 ≤ n)%nat
  then relator_complete_verdict relator n
         ∈ emitted_complete _validate_relator_pattern s
  else relator_incomplete_verdict relator n
         ∈ emitted_incomplete _validate_relator_pattern s.
Proof.
  intros Hin Hst n. rewrite relator_checker_generic.
  destruct (decide _) as [Hn|Hn].
  - apply checker_emitted_complete; [apply relator_body_facts|].
    exists relator. split; [done|split; [done|]].
    change (emitted_complete ?m ?s) with (d_complete (emitted m s)).
    rewrite (proj2 (relator_body_facts relator)). unfold relator_delta.
    fold n. rewrite decide_True by done. by constructor.
  - apply checker_emitted_incomplete; [apply relator_body_facts|].
    exists relator. split; [done|split; [done|]].
    change (emitted_incomplete ?m ?s) with (d_incomplete (emitted m s)).
    rewrite (proj2 (relator_body_facts relator)). unfold relator_delta.
    fold n. rewrite decide_False by done. by constructor.
Qed.

(** C10.  The count reported for a relator is the number of top-level
    relations that are internal and of stereotype 'mediation', in the whole
    model, multiplied by the number of members of the relator's body whose
    stereotype is 'mediation'.  In particular, when the model has no such
    top-level relation, every relator gets an Incomplete verdict with
    count 0, whatever its body holds, and no Complete verdict is emitted. *)
Theorem relator_count_is_product (s : PatternValidator) (relator : ModelClass) :
  relator ∈ classes s → cls_stereotype relator = "relator" →
  let k := length (internal_mediations (relations s)) in
  let b := length (body_mediations relator) in
  (if decide (2 ≤ k * b)%nat
   then relator_complete_verdict relator (k * b)
          ∈ emitted_complete _validate_relator_pattern s
   else relator_incomplete_verdict relator (k * b)
          ∈ emitted_incomplete _validate_relator_pattern s) ∧
  relator_complete_verdict relator (k * b) !! "mediations"
    = Some (VInt (Z.of_nat (k * b))) ∧
  relator_incomplete_verdict relator (k * b) !! "mediations"
    = Some (VInt (Z.of_nat (k * b))) ∧
  (k = 0%nat →
     relator_incomplete_verdict relator 0
       ∈ emitted_incomplete _validate_relator_pattern s ∧
     emitted_complete _validate_relator_pattern s = []).
Proof.
  intros Hin Hst k b.
  pose proof (relator_checker_emits s relator Hin Hst) as H.
  simpl in H. rewrite relator_mediations_length in H. fold k b in H.
  split; [done|]. split; [done|]. split; [done|].
  intros Hk. rewrite Hk in H. simpl in H. split; [done|].
  destruct (emitted_complete _validate_relator_pattern s) as [|p l] eqn:E; [done|].
  assert (Hp : p ∈ emitted_complete _validate_relator_pattern s)
    by (rewrite E; by constructor).
  rewrite relator_checker_generic in Hp.
  apply checker_emitted_complete in Hp as (c&_&_&Hp); [|apply relator_body_facts].
  change (emitted_complete ?m ?s) with (d_complete (emitted m s)) in Hp.
  rewrite (proj2 (relator_body_facts c)) in Hp. unfold relator_delta in Hp.
  rewrite relator_mediations_length in Hp. fold k in Hp. rewrite Hk in Hp.
  simpl in Hp. by apply elem_of_nil in Hp.
Qed.

Lemma relator_count_is_product_witness :
  let R := mkClass "R" "relator" []
             (Some [mkMember (Some "mediation"); mkMember (Some "mediation");
                    mkMember (Some "mediation")]) 7 in
  let s := init (mkData (Some [R])
                   None
                   (Some [mkRelation true (Some "mediation");
                          mkRelation false (Some "mediation");
                          mkRelation true (Some "mediation")])) in
  relator_complete_verdict R 6 ∈ emitted_complete _validate_relator_pattern s.
Proof.
  intros R s.
  refine (proj1 (relator_count_is_product s R _ _)).
  - vm_compute. by constructor.
  - reflexivity.
Defined.

(** C1 (evaluation at the failing inputs).  The claim asks for the count
    of the body members of stereotype 'mediation', the top-level relations
    not being consulted.  On a model with no top-level relation, a relator
    whose body holds two mediation members is reported Incomplete with
    count 0; on a model with two internal top-level mediations, two
    relators with one mediation member each are both reported Complete
    with count 2. *)
Theorem relator_body_count_not_reported :
  let med := mkMember (Some "mediation") in
  let R := mkClass "R" "relator" [] (Some [med; med]) 3 in
  let s := init (mkData (Some [R]) None None) in
  let R1 := mkClass "R1" "relator" [] (Some [med]) 1 in
  let R2 := mkClass "R2" "relator" [] (Some [med]) 5 in
  let top := mkRelation true (Some "mediation") in
  let s' := init (mkData (Some [R1; R2]) None (Some [top; top])) in
  (length (body_mediations R) = 2%nat ∧
   emitted_complete _validate_relator_pattern s = [] ∧
   emitted_incomplete _validate_relator_pattern s
     = [relator_incomplete_verdict R 0] ∧
   relator_incomplete_verdict R 0 !! "error"
     = Some (VStr "Relator deve ter pelo menos 2 mediações (tem 0)")) ∧
  (length (body_mediations R1) = 1%nat ∧
   length (body_mediations R2) = 1%nat ∧
   emitted_complete _validate_relator_pattern s'
     = [relator_complete_verdict R1 2; relator_complete_verdict R2 2] ∧
   emitted_incomplete _validate_relator_pattern s' = []).
Proof.
  intros med R s R1 R2 top s'.
  repeat match goal with |- _ ∧ _ => split end; vm_compute; reflexivity.
Qed.

(** * The RoleMixin checker *)

Lemma rolemixin_checker_incomplete s p :
  p ∈ emitted_incomplete _validate_rolemixin_pattern s ↔
  ∃ c, c ∈ classes s ∧ cls_stereotype c = "roleMixin" ∧
       p ∈ d_incomplete (rolemixin_delta c s).
Proof.
  rewrite rolemixin_checker_generic, checker_emitted_incomplete
    by apply rolemixin_body_facts.
  split; intros (c&?&?&Hp); exists c; (split; [done|split; [done|]]).
  - change (emitted_incomplete ?m ?s) with (d_incomplete (emitted m s)) in Hp.
    by rewrite (proj2 (rolemixin_body_facts c)) in Hp.
  - change (emitted_incomplete ?m ?s) with (d_incomplete (emitted m s)).
    by rewrite (proj2 (rolemixin_body_facts c)).
Qed.

Lemma rolemixin_checker_complete s p :
  p ∈ emitted_complete _validate_rolemixin_pattern s ↔
  ∃ c, c ∈ classes s ∧ cls_stereotype c = "roleMixin" ∧
       p ∈ d_complete (rolemixin_delta c s).
Proof.
  rewrite rolemixin_checker_generic, checker_emitted_complete
    by apply rolemixin_body_facts.
  split; intros (c&?&?&Hp); exists c; (split; [done|split; [done|]]).
  - change (emitted_complete ?m ?s) with (d_complete (emitted m s)) in Hp.
    by rewrite (proj2 (rolemixin_body_facts c)) in Hp.
  - change (emitted_complete ?m ?s) with (d_complete (emitted m s)).
    by rewrite (proj2 (rolemixin_body_facts c)).
Qed.

Lemma rolemixin_checker_queries s q :
  q ∈ emitted_queries _validate_rolemixin_pattern s ↔
  ∃ c, c ∈ classes s ∧ cls_stereotype c = "roleMixin" ∧
       q ∈ d_queries (rolemixin_delta c s).
Proof.
  rewrite rolemixin_checker_generic, checker_emitted_queries
    by apply rolemixin_body_facts.
  split; intros (c&?&?&Hp); exists c; (split; [done|split; [done|]]).
  - change (emitted_queries ?m ?s) with (d_queries (emitted m s)) in Hp.
    by rewrite (proj2 (rolemixin_body_facts c)) in Hp.
  - change (emitted_queries ?m ?s) with (d_queries (emitted m s)).
    by rewrite (proj2 (rolemixin_body_facts c)).
Qed.

Lemma rolemixin_delta_few c s :
  (length (specializers "role" (cls_name c) (classes s)) < 2)%nat →
  rolemixin_delta c s = mkDelta [] [rolemixin_few_verdict c] [].
Proof. intros H. unfold rolemixin_delta. by rewrite decide_True. Qed.

Lemma add_roles_text_not_template n n' names :
  "Adicione roles que especializam " +:+ n ≠ rolemixin_genset_suggestion n' names.
Proof. unfold rolemixin_genset_suggestion. simpl. intros H. discriminate H. Qed.

(** C3.  A roleMixin with fewer than two roles listing it among their
    parents gets an Incomplete verdict: its error states the minimum of two
    roles, its suggestion is to add specializing roles.  The run of the
    loop body appends that verdict and nothing else: no call of the genset
    matcher is made (the ghost log of queries is untouched, and the whole
    checker makes no query for that roleMixin), and no verdict for that
    roleMixin carries the 'disjoint complete' genset template. *)
Theorem rolemixin_few_roles_incomplete
    (s : PatternValidator) (rolemixin : ModelClass) :
  rolemixin ∈ classes s → cls_stereotype rolemixin = "roleMixin" →
  (length (specializers "role" (cls_name rolemixin) (classes s)) < 2)%nat →
  let v := rolemixin_few_verdict rolemixin in
  let name := cls_name rolemixin in
  _validate_rolemixin_pattern_body rolemixin s
    = (tt, extend s (mkDelta [] [v] [])) ∧
  emitted_queries (_validate_rolemixin_pattern_body rolemixin) s = [] ∧
  v ∈ emitted_incomplete _validate_rolemixin_pattern s ∧
  v !! "type" = Some (VStr "RoleMixin Pattern") ∧
  v !! "error"
    = Some (VStr ("Precisa de pelo menos 2 roles especializando " +:+ name)) ∧
  v !! "suggestion" = Some (VStr ("Adicione roles que especializam " +:+ name)) ∧
  (∀ q, q ∈ emitted_queries _validate_rolemixin_pattern s → q_general q ≠ name) ∧
  (∀ p, p ∈ emitted_incomplete _validate_rolemixin_pattern s →
        p !! "rolemixin" = Some (VStr name) →
        p !! "suggestion"
          = Some (VStr ("Adicione roles que especializam " +:+ name)) ∧
        ∀ n names, p !! "suggestion"
                     ≠ Some (VStr (rolemixin_genset_suggestion n names))) ∧
  (∀ p, p ∈ emitted_complete _validate_rolemixin_pattern s →
        p !! "rolemixin" ≠ Some (VStr name)).
Proof.
  intros Hin Hst Hfew v name.
  assert (Hother : ∀ c, cls_name c = name →
            rolemixin_delta c s = mkDelta [] [rolemixin_few_verdict c] []).
  { intros c Hc. apply rolemixin_delta_few. by rewrite Hc. }
  split; [by rewrite rolemixin_body_run, rolemixin_delta_few|].
  split.
  { change (emitted_queries ?m ?s) with (d_queries (emitted m s)).
    by rewrite (proj2 (rolemixin_body_facts rolemixin)), rolemixin_delta_few. }
  split.
  { apply rolemixin_checker_incomplete. exists rolemixin.
    rewrite rolemixin_delta_few by done. repeat split; try done. by constructor. }
  do 3 (split; [done|]).
  split; [|split].
  - intros q (c&_&_&Hq)%rolemixin_checker_queries Hname.
    unfold rolemixin_delta in Hq. destruct (decide _) as [|Hge].
    { by apply elem_of_nil in Hq. }
    assert (q_general q = cls_name c) as Hqc.
    { destruct (find_genset_loop _ _ _ _ _); simpl in Hq;
        apply list_elem_of_singleton in Hq; by subst q. }
    destruct Hge. rewrite <- Hqc, Hname. exact Hfew.
  - intros p (c&_&_&Hp)%rolemixin_checker_incomplete Hname.
    assert (cls_name c = name) as Hc.
    { unfold rolemixin_delta in Hp.
      destruct (decide _); [|destruct (find_genset_loop _ _ _ _ _)];
        simpl in Hp; try (by apply elem_of_nil in Hp);
        apply list_elem_of_singleton in Hp; subst p;
        by injection Hname. }
    rewrite Hother in Hp by done. apply list_elem_of_singleton in Hp. subst p.
    split; [by rewrite <- Hc|].
    intros n names H.
    apply (add_roles_text_not_template (cls_name c) n names).
    assert (Hs : rolemixin_few_verdict c !! "suggestion"
              = Some (VStr ("Adicione roles que especializam " +:+ cls_name c)))
      by reflexivity.
    congruence.
  - intros p (c&_&_&Hp)%rolemixin_checker_complete Hname.
    assert (cls_name c = name) as Hc.
    { unfold rolemixin_delta in Hp.
      destruct (decide _); [|destruct (find_genset_loop _ _ _ _ _)];
        simpl in Hp; try (by apply elem_of_nil in Hp);
        apply list_elem_of_singleton in Hp; subst p;
        by injection Hname. }
    rewrite Hother in Hp by done. by apply elem_of_nil in Hp.
Qed.

Lemma rolemixin_few_roles_incomplete_witness :
  let RM := mkClass "Customer" "roleMixin" [] None 4 in
  let r := mkClass "PersonalCustomer" "role" ["Person"; "Customer"] None 6 in
  let g := mkGenset "G" (Some "Customer") ["PersonalCustomer"]
             ["disjoint"; "complete"] in
  let s := init (mkData (Some [RM; r]) (Some [g]) None) in
  rolemixin_few_verdict RM ∈ emitted_incomplete _validate_rolemixin_pattern s ∧
  emitted_queries (_validate_rolemixin_pattern_body RM) s = [].
Proof.
  intros RM r g s.
  assert (HRM : RM ∈ classes s) by (vm_compute; by constructor).
  assert (Hst : cls_stereotype RM = "roleMixin") by reflexivity.
  assert (Hfew : (length (specializers "role" (cls_name RM) (classes s)) < 2)%nat)
    by (vm_compute; lia).
  pose proof (rolemixin_few_roles_incomplete s RM HRM Hst Hfew) as (_&Hq&Hv&_).
  split; [exact Hv|exact Hq].
Defined.

(** * The Subkind, Role and Phase checkers *)

Lemma kind_checker_generic pat :
  kind_checker pat = checker "kind" (kind_pattern_body (policy pat)).
Proof. by destruct pat. Qed.

Lemma kind_loop_body_generic pat :
  kind_loop_body pat = kind_pattern_body (policy pat).
Proof. by destruct pat. Qed.

Lemma kind_checker_incomplete pat s p :
  p ∈ emitted_incomplete (kind_checker pat) s ↔
  ∃ c, c ∈ classes s ∧ cls_stereotype c = "kind" ∧
       p ∈ d_incomplete (kind_pattern_delta (policy pat) c s).
Proof.
  rewrite kind_checker_generic, checker_emitted_incomplete
    by apply appender_kind_pattern_body.
  split; intros (c&?&?&Hp); exists c; (split; [done|split; [done|]]).
  - change (emitted_incomplete ?m ?s) with (d_incomplete (emitted m s)) in Hp.
    by rewrite emitted_kind_pattern_body in Hp.
  - change (emitted_incomplete ?m ?s) with (d_incomplete (emitted m s)).
    by rewrite emitted_kind_pattern_body.
Qed.

Lemma kind_checker_complete pat s p :
  p ∈ emitted_complete (kind_checker pat) s ↔
  ∃ c, c ∈ classes s ∧ cls_stereotype c = "kind" ∧
       p ∈ d_complete (kind_pattern_delta (policy pat) c s).
Proof.
  rewrite kind_checker_generic, checker_emitted_complete
    by apply appender_kind_pattern_body.
  split; intros (c&?&?&Hp); exists c; (split; [done|split; [done|]]).
  - change (emitted_complete ?m ?s) with (d_complete (emitted m s)) in Hp.
    by rewrite emitted_kind_pattern_body in Hp.
  - change (emitted_complete ?m ?s) with (d_complete (emitted m s)).
    by rewrite emitted_kind_pattern_body.
Qed.

Lemma kind_incomplete_lookup_kind pat kind names :
  kind_incomplete_verdict (policy pat) kind names !! "kind"
  = Some (VStr (cls_name kind)).
Proof. by destruct pat. Qed.

Lemma kind_incomplete_lookup_suggestion pat kind names :
  kind_incomplete_verdict (policy pat) kind names !! "suggestion"
  = Some (VStr (suggestion_text (policy pat) (cls_name kind) names)).
Proof. by destruct pat. Qed.

Lemma kind_complete_lookup_kind pat kind names g :
  kind_complete_verdict (policy pat) kind names g !! "kind"
  = Some (VStr (cls_name kind)).
Proof. by destruct pat. Qed.

(** The verdicts a loop body can append, with the conditions under which
    it does. *)
Lemma kind_delta_incomplete_inv pat c s p :
  p ∈ d_incomplete (kind_pattern_delta (policy pat) c s) →
  let specs := specializers (kp_specializer (policy pat)) (cls_name c) (classes s) in
  (2 ≤ length specs)%nat ∧
  p = kind_incomplete_verdict (policy pat) c (cls_name <$> specs) ∧
  find_genset_loop (gensets s) (cls_name c) (cls_name <$> specs)
    (default [] (kp_required (policy pat)))
    (default [] (kp_forbidden (policy pat))) = None.
Proof.
  intros Hp specs. unfold kind_pattern_delta in Hp. fold specs in Hp.
  destruct (decide _) as [|Hge]; [by apply elem_of_nil in Hp|].
  destruct (find_genset_loop _ _ _ _ _) eqn:E; simpl in Hp;
    [by apply elem_of_nil in Hp|].
  apply list_elem_of_singleton in Hp. split; [lia|done].
Qed.

Lemma kind_delta_complete_inv pat c s p :
  p ∈ d_complete (kind_pattern_delta (policy pat) c s) →
  let specs := specializers (kp_specializer (policy pat)) (cls_name c) (classes s) in
  (2 ≤ length specs)%nat ∧
  ∃ g, p = kind_complete_verdict (policy pat) c (cls_name <$> specs) g ∧
       find_genset_loop (gensets s) (cls_name c) (cls_name <$> specs)
         (default [] (kp_required (policy pat)))
         (default [] (kp_forbidden (policy pat))) = Some g.
Proof.
  intros Hp specs. unfold kind_pattern_delta in Hp. fold specs in Hp.
  destruct (decide _) as [|Hge]; [by apply elem_of_nil in Hp|].
  destruct (find_genset_loop _ _ _ _ _) as [g|] eqn:E; simpl in Hp;
    [|by apply elem_of_nil in Hp].
  apply list_elem_of_singleton in Hp. split; [lia|by exists g].
Qed.

(** C6.  If fewer than two classes of the specializer stereotype list a
    kind among their parents, the run of the loop body for that kind
    leaves the validator as it was, and no verdict of the checker, Complete
    or Incomplete, is about that kind. *)
Theorem too_few_specializers_no_verdict
    (pat : KindPattern) (s : PatternValidator) (kind : ModelClass) :
  (length (specializers (kp_specializer (policy pat)) (cls_name kind) (classes s))
   < 2)%nat →
  kind_loop_body pat kind s = (tt, s) ∧
  (∀ p, p ∈ emitted_complete (kind_checker pat) s ∨
        p ∈ emitted_incomplete (kind_checker pat) s →
        p !! "kind" ≠ Some (VStr (cls_name kind))).
Proof.
  intros Hfew. split.
  - rewrite kind_loop_body_generic, kind_pattern_body_run.
    unfold kind_pattern_delta. rewrite decide_True by done.
    by rewrite extend_empty.
  - intros p [Hp|Hp] Hk.
    + apply kind_checker_complete in Hp as (c&_&_&Hp).
      apply kind_delta_complete_inv in Hp as (Hge&g&->&_).
      rewrite kind_complete_lookup_kind in Hk. injection Hk as Hk.
      rewrite Hk in Hge. lia.
    + apply kind_checker_incomplete in Hp as (c&_&_&Hp).
      apply kind_delta_incomplete_inv in Hp as (Hge&->&_).
      rewrite kind_incomplete_lookup_kind in Hk. injection Hk as Hk.
      rewrite Hk in Hge. lia.
Qed.

Lemma too_few_specializers_no_verdict_witness :
  let K := mkClass "Person" "kind" [] None 1 in
  let A := mkClass "Child" "phase" ["Person"] None 2 in
  let s := init (mkData (Some [K; A]) None None) in
  _validate_phase_pattern_body K s = (tt, s).
Proof.
  intros K A s.
  refine (proj1 (too_few_specializers_no_verdict PhasePattern s K _)).
  vm_compute. lia.
Defined.

Lemma disjoint_never_qualifies_for_role g gc sc :
  "disjoint" ∈ gs_modifiers g → ¬ qualifies g gc sc ["complete"] ["disjoint"].
Proof. intros Hd (_&_&_&Hf). apply (Hf "disjoint" Hd). by constructor. Qed.

(** C4.  For a kind with at least two specializing roles, a genset whose
    modifiers contain 'disjoint' (in particular one with both 'complete'
    and 'disjoint') does not satisfy the Role Pattern query; when every
    genset of the model is such a genset or fails the query otherwise, the
    Role checker emits the Incomplete verdict for that kind and no Complete
    verdict for it. *)
Theorem role_pattern_rejects_disjoint_genset
    (s : PatternValidator) (kind : ModelClass) :
  kind ∈ classes s → cls_stereotype kind = "kind" →
  let roles := cls_name <$> specializers "role" (cls_name kind) (classes s) in
  (2 ≤ length roles)%nat →
  (∀ g, g ∈ gensets s →
        ("complete" ∈ gs_modifiers g ∧ "disjoint" ∈ gs_modifiers g) ∨
        ¬ qualifies g (cls_name kind) roles ["complete"] ["disjoint"]) →
  (∀ g, "complete" ∈ gs_modifiers g → "disjoint" ∈ gs_modifiers g →
        ¬ qualifies g (cls_name kind) roles ["complete"] ["disjoint"]) ∧
  (_find_genset_for_classes (cls_name kind) roles
     (Some ["complete"]) (Some ["disjoint"]) s).1 = None ∧
  kind_incomplete_verdict role_policy kind roles
    ∈ emitted_incomplete _validate_role_pattern s ∧
  kind_incomplete_verdict role_policy kind roles !! "type"
    = Some (VStr "Role Pattern") ∧
  kind_incomplete_verdict role_policy kind roles !! "error"
    = Some (VStr "Falta genset complete (sem disjoint)") ∧
  (∀ p, p ∈ emitted_complete _validate_role_pattern s →
        p !! "kind" ≠ Some (VStr (cls_name kind))).
Proof.
  intros Hin Hst roles Hlen Hgs.
  assert (Hnone : find_genset_loop (gensets s) (cls_name kind) roles
                    ["complete"] ["disjoint"] = None).
  { apply find_genset_loop_none, Forall_forall. intros g Hg.
    destruct (Hgs g Hg) as [[_ Hd]|Hn]; [|done].
    by apply disjoint_never_qualifies_for_role. }
  split; [intros g _ Hd; by apply disjoint_never_qualifies_for_role|].
  split; [done|]. split; [|split; [done|split; [done|]]].
  - apply (kind_checker_incomplete RolePattern). exists kind.
    split; [done|split; [done|]]. unfold kind_pattern_delta; simpl.
    fold roles. unfold roles in Hlen. rewrite length_fmap in Hlen.
    rewrite decide_False by lia. fold roles. rewrite Hnone. by constructor.
  - intros p Hp Hk.
    apply (kind_checker_complete RolePattern) in Hp as (c&_&_&Hp).
    apply kind_delta_complete_inv in Hp as (_&g&->&Hfind).
    rewrite (kind_complete_lookup_kind RolePattern) in Hk. injection Hk as Hk.
    simpl in Hfind. rewrite Hk in Hfind. fold roles in Hfind. congruence.
Qed.

Lemma role_pattern_rejects_disjoint_genset_witness :
  let K := mkClass "Person" "kind" [] None 1 in
  let A := mkClass "Student" "role" ["Person"] None 2 in
  let B := mkClass "Employee" "role" ["Person"] None 3 in
  let g := mkGenset "PersonRoles" (Some "Person") ["Student"; "Employee"]
             ["complete"; "disjoint"] in
  let s := init (mkData (Some [K; A; B]) (Some [g]) None) in
  kind_incomplete_verdict role_policy K ["Student"; "Employee"]
    ∈ emitted_incomplete _validate_role_pattern s.
Proof.
  intros K A B g s.
  assert (HK : K ∈ classes s) by (vm_compute; by constructor).
  assert (Hst : cls_stereotype K = "kind") by reflexivity.
  assert (Hlen : (2 ≤ length (cls_name <$>
                      specializers "role" (cls_name K) (classes s)))%nat)
    by (vm_compute; lia).
  assert (Hgs : ∀ g', g' ∈ gensets s →
            ("complete" ∈ gs_modifiers g' ∧ "disjoint" ∈ gs_modifiers g') ∨
            ¬ qualifies g' (cls_name K)
                (cls_name <$> specializers "role" (cls_name K) (classes s))
                ["complete"] ["disjoint"]).
  { intros g' Hg'. left. apply list_elem_of_singleton in Hg'. subst g'.
    split; [by constructor|by do 2 constructor]. }
  exact (proj1 (proj2 (proj2
           (role_pattern_rejects_disjoint_genset s K HK Hst Hlen Hgs)))).
Defined.

Lemma suggestion_text_shape pat k ns :
  suggestion_text (policy pat) k ns =
  "Adicione: " +:+
  match pat with
  | SubkindPattern => "disjoint complete"
  | RolePattern => "complete"
  | PhasePattern => "disjoint complete"
  end +:+ " genset " +:+ k +:+
  match pat with
  | SubkindPattern => "_Genset"
  | RolePattern => "_Role_Genset"
  | PhasePattern => "_Phase_Genset"
  end +:+ " { general " +:+ k +:+ " specifics " +:+ join ", " ns +:+ " }".
Proof. by destruct pat. Qed.

(** C5, counterexample.  For a kind with two phases and no genset, the
    Phase checker's Incomplete verdict suggests the text shown; it is not
    the template of the claim for the Phase pattern's required modifiers
    (only 'disjoint'), with or without the leading 'Adicione: ', whatever
    the kind and the names. *)
Lemma phase_suggestion_is_not_the_spec_template :
  let K := mkClass "K" "kind" [] None 1 in
  let A := mkClass "A" "phase" ["K"] None 2 in
  let B := mkClass "B" "phase" ["K"] None 3 in
  let s := init (mkData (Some [K; A; B]) None None) in
  ∃ p, emitted_incomplete (kind_checker PhasePattern) s = [p] ∧
       p !! "suggestion" = Some (VStr
         "Adicione: disjoint complete genset K_Phase_Genset { general K specifics A, B }") ∧
       default [] (kp_required (policy PhasePattern)) = ["disjoint"] ∧
       ∀ kind names,
         p !! "suggestion" ≠ Some (VStr (spec_template ["disjoint"] kind names)) ∧
         p !! "suggestion"
           ≠ Some (VStr ("Adicione: " +:+ spec_template ["disjoint"] kind names)).
Proof.
  intros K A B s.
  exists (kind_incomplete_verdict phase_policy K ["A"; "B"]).
  split; [vm_compute; reflexivity|]. split; [vm_compute; reflexivity|]. split; [done|].
  intros kind names.
  assert (Hs : kind_incomplete_verdict phase_policy K ["A"; "B"] !! "suggestion"
            = Some (VStr
         "Adicione: disjoint complete genset K_Phase_Genset { general K specifics A, B }"))
    by (vm_compute; reflexivity).
  rewrite Hs. unfold spec_template. simpl. split; intros H; discriminate H.
Qed.

(** C5, as amended.  Every Incomplete verdict of the Subkind, Role or Phase
    checker is about a kind of the model, and its suggestion is
    'Adicione: ' followed by the declaration
    [<modifiers> genset <Kind><suffix> { general <Kind> specifics
    <name1>, <name2>, ... }], the names being the collected specializers in
    collection order, with modifiers and suffix 'disjoint complete' and
    '_Genset' for Subkind, 'complete' and '_Role_Genset' for Role,
    'disjoint complete' and '_Phase_Genset' for Phase. *)
Theorem incomplete_suggestion_is_code_template
    (pat : KindPattern) (s : PatternValidator) (p : gmap string pyval) :
  p ∈ emitted_incomplete (kind_checker pat) s →
  ∃ kind, kind ∈ classes s ∧ cls_stereotype kind = "kind" ∧
    p !! "kind" = Some (VStr (cls_name kind)) ∧
    let names := cls_name <$>
      specializers (kp_specializer (policy pat)) (cls_name kind) (classes s) in
    p !! "suggestion" = Some (VStr (
      "Adicione: " +:+
      match pat with
      | SubkindPattern => "disjoint complete"
      | RolePattern => "complete"
      | PhasePattern => "disjoint complete"
      end +:+ " genset " +:+ cls_name kind +:+
      match pat with
      | SubkindPattern => "_Genset"
      | RolePattern => "_Role_Genset"
      | PhasePattern => "_Phase_Genset"
      end +:+ " { general " +:+ cls_name kind +:+ " specifics "
      +:+ join ", " names +:+ " }")).
Proof.
  intros (c&Hin&Hst&Hp)%kind_checker_incomplete.
  apply kind_delta_incomplete_inv in Hp as (_&->&_).
  exists c. split; [done|split; [done|]].
  split; [apply kind_incomplete_lookup_kind|].
  intros names. rewrite kind_incomplete_lookup_suggestion.
  by rewrite suggestion_text_shape.
Qed.

Lemma incomplete_suggestion_is_code_template_witness :
  let K := mkClass "K" "kind" [] None 1 in
  let A := mkClass "A" "role" ["K"] None 2 in
  let B := mkClass "B" "role" ["K"] None 3 in
  let s := init (mkData (Some [K; A; B]) None None) in
  let p := kind_incomplete_verdict role_policy K ["A"; "B"] in
  p ∈ emitted_incomplete (kind_checker RolePattern) s ∧
  ∃ kind, kind ∈ classes s ∧ cls_stereotype kind = "kind" ∧
    p !! "kind" = Some (VStr (cls_name kind)) ∧
    p !! "suggestion" = Some (VStr (
      "Adicione: complete genset " +:+ cls_name kind +:+ "_Role_Genset { general "
      +:+ cls_name kind +:+ " specifics "
      +:+ join ", " (cls_name <$> specializers "role" (cls_name kind) (classes s))
      +:+ " }")).
Proof.
  intros K A B s p.
  assert (Hp : p ∈ emitted_incomplete (kind_checker RolePattern) s)
    by (vm_compute; by constructor).
  split; [exact Hp|].
  exact (incomplete_suggestion_is_code_template RolePattern s p Hp).
Defined.

(** * The Mode checker *)

Lemma mode_flags_spec body hc he :
  mode_flags body (hc, he) =
  (hc || existsb (λ member,
            bool_decide (mem_stereotype member = Some "characterization")) body,
   he || existsb (λ member,
            bool_decide (mem_stereotype member = Some "externalDependence")) body).
Proof.
  unfold mode_flags. revert hc he.
  induction body as [|m body IH]; intros hc he; simpl.
  - by rewrite !orb_false_r.
  - rewrite IH. f_equal.
    + destruct (decide _) as [Hm|Hm].
      * rewrite bool_decide_eq_true_2 by done. simpl. by rewrite orb_true_r.
      * rewrite bool_decide_eq_false_2 by done. done.
    + destruct (decide _) as [Hm|Hm].
      * rewrite bool_decide_eq_true_2 by done. simpl. by rewrite orb_true_r.
      * rewrite bool_decide_eq_false_2 by done. done.
Qed.

Lemma mode_scan_spec mode :
  mode_scan mode =
  (has_member "characterization" mode, has_member "externalDependence" mode).
Proof.
  unfold mode_scan, has_member.
  destruct (cls_body mode) as [[|m body]|]; try done.
  by rewrite mode_flags_spec.
Qed.

Lemma mode_checker_incomplete s p :
  p ∈ emitted_incomplete _validate_mode_pattern s ↔
  ∃ c, c ∈ classes s ∧ cls_stereotype c = "mode" ∧
       p ∈ d_incomplete (mode_delta c).
Proof.
  rewrite mode_checker_generic, checker_emitted_incomplete
    by apply mode_body_facts.
  split; intros (c&?&?&Hp); exists c; (split; [done|split; [done|]]).
  - change (emitted_incomplete ?m ?s) with (d_incomplete (emitted m s)) in Hp.
    by rewrite (proj2 (mode_body_facts c)) in Hp.
  - change (emitted_incomplete ?m ?s) with (d_incomplete (emitted m s)).
    by rewrite (proj2 (mode_body_facts c)).
Qed.

(** C7, counterexample.  For a mode without body both relation kinds are
    missing; the suggestion joins them with ' e ', and the word 'and' does
    not occur in it. *)
Lemma mode_suggestion_does_not_join_with_and :
  let Mo := mkClass "M" "mode" [] None 9 in
  let s := init (mkData (Some [Mo]) None None) in
  ∃ p, emitted_incomplete _validate_mode_pattern s = [p] ∧
       p !! "error"
         = Some (VStr "Faltam relações: @characterization, @externalDependence") ∧
       p !! "suggestion" = Some (VStr
         "Adicione @characterization e @externalDependence dentro do mode M") ∧
       p !! "suggestion" ≠ Some (VStr
         "Adicione @characterization and @externalDependence dentro do mode M") ∧
       str_contains "and"
         "Adicione @characterization e @externalDependence dentro do mode M"
         = false.
Proof.
  intros Mo s.
  exists (mode_incomplete_verdict Mo ["@characterization"; "@externalDependence"]).
  split; [vm_compute; reflexivity|]. split; [vm_compute; reflexivity|]. split; [vm_compute; reflexivity|].
  split; [|vm_compute; reflexivity].
  assert (Hs : mode_incomplete_verdict Mo
                 ["@characterization"; "@externalDependence"] !! "suggestion"
            = Some (VStr
         "Adicione @characterization e @externalDependence dentro do mode M"))
    by (vm_compute; reflexivity).
  rewrite Hs. intros H. discriminate H.
Qed.

(** C7, as amended.  A mode that lacks a body member of stereotype
    'characterization' or one of stereotype 'externalDependence' gets an
    Incomplete verdict.  Its error is 'Faltam relações: ' followed by
    exactly the missing relation kinds ('@characterization',
    '@externalDependence', in that order) joined with ', '; its suggestion
    names the same kinds joined with ' e '.  A mode with a characterization
    member only has an error naming '@externalDependence' alone. *)
Theorem mode_incomplete_lists_missing
    (s : PatternValidator) (mode : ModelClass) :
  mode ∈ classes s → cls_stereotype mode = "mode" →
  let hc := has_member "characterization" mode in
  let he := has_member "externalDependence" mode in
  hc && he = false →
  let missing := (if hc then [] else ["@characterization"]) ++
                 (if he then [] else ["@externalDependence"]) in
  ∃ p, p ∈ emitted_incomplete _validate_mode_pattern s ∧
       p !! "type" = Some (VStr "Mode Pattern") ∧
       p !! "mode" = Some (VStr (cls_name mode)) ∧
       p !! "line" = Some (VInt (cls_line mode)) ∧
       p !! "error" = Some (VStr ("Faltam relações: " +:+ join ", " missing)) ∧
       p !! "suggestion" = Some (VStr ("Adicione " +:+ join " e " missing
                                   +:+ " dentro do mode " +:+ cls_name mode)) ∧
       (hc = true →
        p !! "error" = Some (VStr "Faltam relações: @externalDependence")).
Proof.
  intros Hin Hst hc he Hmiss missing.
  exists (mode_incomplete_verdict mode missing).
  split.
  - apply mode_checker_incomplete. exists mode. split; [done|split; [done|]].
    unfold mode_delta. rewrite mode_scan_spec. simpl. fold hc he.
    rewrite Hmiss. simpl. unfold mode_missing; simpl. fold hc he.
    subst missing. destruct hc, he; simpl; by constructor.
  - do 5 (split; [done|]). intros Hc. subst missing.
    rewrite Hc in *. simpl in Hmiss. rewrite Hmiss. done.
Qed.

Lemma mode_incomplete_lists_missing_witness :
  let Mo := mkClass "Skill" "mode" []
              (Some [mkMember (Some "characterization")]) 12 in
  let s := init (mkData (Some [Mo]) None None) in
  ∃ p, p ∈ emitted_incomplete _validate_mode_pattern s ∧
       p !! "error" = Some (VStr "Faltam relações: @externalDependence") ∧
       p !! "suggestion"
         = Some (VStr "Adicione @externalDependence dentro do mode Skill").
Proof.
  intros Mo s.
  assert (HMo : Mo ∈ classes s) by (vm_compute; by constructor).
  assert (Hst : cls_stereotype Mo = "mode") by reflexivity.
  assert (Hmiss : has_member "characterization" Mo
                  && has_member "externalDependence" Mo = false) by reflexivity.
  destruct (mode_incomplete_lists_missing s Mo HMo Hst Hmiss)
    as (p&Hp&_&_&_&He&Hs&_).
  exists p. split; [exact Hp|]. split; [exact He|exact Hs].
Defined.

(** * The aggregator *)

Lemma bind_unit_run {B} (m : M unit) (k : M B) s :
  (m ;; k) s = k (m s).2.
Proof. unfold mbind, M_bind. by destruct (m s). Qed.

Lemma validate_all_run repr_str str_dict s :
  validate_all repr_str str_dict s =
  let s' := (run_checkers (reset s)).2 in
  (format_results repr_str str_dict s', s').
Proof.
  unfold validate_all, run_checkers.
  rewrite !bind_unit_run. reflexivity.
Qed.

Lemma emitted_seq (m1 m2 : M unit) s :
  appender m1 → appender m2 →
  emitted (m1 ;; m2) s = dapp (emitted m1 s) (emitted m2 s).
Proof. intros H1 H2. by rewrite emitted_bind. Qed.

Lemma appender_seq (m1 m2 : M unit) :
  appender m1 → appender m2 → appender (m1 ;; m2).
Proof. intros H1 H2. by apply appender_bind. Qed.

Lemma appender_kind_checker pat : appender (kind_checker pat).
Proof.
  rewrite kind_checker_generic.
  apply appender_checker, appender_kind_pattern_body.
Qed.

Lemma appender_relator_checker : appender _validate_relator_pattern.
Proof.
  rewrite relator_checker_generic. apply appender_checker.
  intros c. apply relator_body_facts.
Qed.

Lemma appender_mode_checker : appender _validate_mode_pattern.
Proof.
  rewrite mode_checker_generic. apply appender_checker.
  intros c. apply mode_body_facts.
Qed.

Lemma appender_rolemixin_checker : appender _validate_rolemixin_pattern.
Proof.
  rewrite rolemixin_checker_generic. apply appender_checker.
  intros c. apply rolemixin_body_facts.
Qed.

Lemma appender_run_checkers : appender run_checkers.
Proof.
  unfold run_checkers.
  apply appender_seq; [apply (appender_kind_checker SubkindPattern)|].
  apply appender_seq; [apply (appender_kind_checker RolePattern)|].
  apply appender_seq; [apply (appender_kind_checker PhasePattern)|].
  apply appender_seq; [apply appender_relator_checker|].
  apply appender_seq; [apply appender_mode_checker|].
  apply appender_rolemixin_checker.
Qed.

Lemma emitted_run_checkers s :
  emitted run_checkers s =
  dapp (emitted _validate_subkind_pattern s)
    (dapp (emitted _validate_role_pattern s)
    (dapp (emitted _validate_phase_pattern s)
    (dapp (emitted _validate_relator_pattern s)
    (dapp (emitted _validate_mode_pattern s)
          (emitted _validate_rolemixin_pattern s))))).
Proof.
  unfold run_checkers.
  pose proof (appender_kind_checker SubkindPattern).
  pose proof (appender_kind_checker RolePattern).
  pose proof (appender_kind_checker PhasePattern).
  pose proof appender_relator_checker.
  pose proof appender_mode_checker.
  pose proof appender_rolemixin_checker.
  simpl in *.
  repeat (rewrite emitted_seq; [f_equal|done|repeat apply appender_seq; done]).
Qed.

Lemma checker_complete_delta stereotype body
    (delta : ModelClass → PatternValidator → Delta) s p :
  (∀ c, appender (body c) ∧ ∀ s, emitted (body c) s = delta c s) →
  p ∈ emitted_complete (checker stereotype body) s ↔
  ∃ c, c ∈ classes s ∧ cls_stereotype c = stereotype ∧
       p ∈ d_complete (delta c s).
Proof.
  intros Hb. rewrite checker_emitted_complete by apply Hb.
  split; intros (c&?&?&Hp); exists c; (split; [done|split; [done|]]).
  - change (emitted_complete ?m ?s) with (d_complete (emitted m s)) in Hp.
    by rewrite (proj2 (Hb c)) in Hp.
  - change (emitted_complete ?m ?s) with (d_complete (emitted m s)).
    by rewrite (proj2 (Hb c)).
Qed.

Lemma checker_incomplete_delta stereotype body
    (delta : ModelClass → PatternValidator → Delta) s p :
  (∀ c, appender (body c) ∧ ∀ s, emitted (body c) s = delta c s) →
  p ∈ emitted_incomplete (checker stereotype body) s ↔
  ∃ c, c ∈ classes s ∧ cls_stereotype c = stereotype ∧
       p ∈ d_incomplete (delta c s).
Proof.
  intros Hb. rewrite checker_emitted_incomplete by apply Hb.
  split; intros (c&?&?&Hp); exists c; (split; [done|split; [done|]]).
  - change (emitted_incomplete ?m ?s) with (d_incomplete (emitted m s)) in Hp.
    by rewrite (proj2 (Hb c)) in Hp.
  - change (emitted_incomplete ?m ?s) with (d_incomplete (emitted m s)).
    by rewrite (proj2 (Hb c)).
Qed.

Lemma kind_checker_complete_shape pat s p :
  p ∈ emitted_complete (kind_checker pat) s → complete_shape p.
Proof.
  intros (c&_&_&Hp)%kind_checker_complete.
  apply kind_delta_complete_inv in Hp as (_&g&->&_).
  apply shape_kind_complete.
Qed.

Lemma kind_checker_incomplete_shape pat s p :
  p ∈ emitted_incomplete (kind_checker pat) s → incomplete_shape p.
Proof.
  intros (c&_&_&Hp)%kind_checker_incomplete.
  apply kind_delta_incomplete_inv in Hp as (_&->&_).
  apply shape_kind_incomplete.
Qed.

Lemma relator_delta_shapes c s :
  Forall complete_shape (d_complete (relator_delta c s)) ∧
  Forall incomplete_shape (d_incomplete (relator_delta c s)).
Proof.
  unfold relator_delta. destruct (decide _); cbn [d_complete d_incomplete];
    split; try apply Forall_nil_2; (apply Forall_cons_2; [|apply Forall_nil_2]).
  - apply shape_relator_complete.
  - apply shape_relator_incomplete.
Qed.

Lemma mode_delta_shapes c :
  Forall complete_shape (d_complete (mode_delta c)) ∧
  Forall incomplete_shape (d_incomplete (mode_delta c)).
Proof.
  unfold mode_delta. destruct (_ && _); cbn [d_complete d_incomplete];
    split; try apply Forall_nil_2; (apply Forall_cons_2; [|apply Forall_nil_2]).
  - apply shape_mode_complete.
  - apply shape_mode_incomplete.
Qed.

Lemma rolemixin_delta_shapes c s :
  Forall complete_shape (d_complete (rolemixin_delta c s)) ∧
  Forall incomplete_shape (d_incomplete (rolemixin_delta c s)).
Proof.
  unfold rolemixin_delta.
  destruct (decide _); [|destruct (find_genset_loop _ _ _ _ _)];
    cbn [d_complete d_incomplete];
    split; try apply Forall_nil_2; (apply Forall_cons_2; [|apply Forall_nil_2]).
  - apply shape_rolemixin_few.
  - apply shape_rolemixin_complete.
  - apply shape_rolemixin_incomplete.
Qed.

Lemma run_checkers_complete_shape s p :
  p ∈ emitted_complete run_checkers s → complete_shape p.
Proof.
  change (emitted_complete ?m ?s) with (d_complete (emitted m s)).
  rewrite emitted_run_checkers. simpl. rewrite !elem_of_app.
  intros [H|[H|[H|[H|[H|H]]]]].
  - by apply (kind_checker_complete_shape SubkindPattern s).
  - by apply (kind_checker_complete_shape RolePattern s).
  - by apply (kind_checker_complete_shape PhasePattern s).
  - change (p ∈ emitted_complete _validate_relator_pattern s) in H.
    rewrite relator_checker_generic in H.
    apply (checker_complete_delta _ _ relator_delta) in H as (c&_&_&H);
      [|apply relator_body_facts].
    revert p H. apply Forall_forall, relator_delta_shapes.
  - change (p ∈ emitted_complete _validate_mode_pattern s) in H.
    rewrite mode_checker_generic in H.
    apply (checker_complete_delta _ _ (λ c _, mode_delta c)) in H as (c&_&_&H);
      [|apply mode_body_facts].
    revert p H. apply Forall_forall, mode_delta_shapes.
  - apply rolemixin_checker_complete in H as (c&_&_&H).
    revert p H. apply Forall_forall, rolemixin_delta_shapes.
Qed.

Lemma run_checkers_incomplete_shape s p :
  p ∈ emitted_incomplete run_checkers s → incomplete_shape p.
Proof.
  change (emitted_incomplete ?m ?s) with (d_incomplete (emitted m s)).
  rewrite emitted_run_checkers. simpl. rewrite !elem_of_app.
  intros [H|[H|[H|[H|[H|H]]]]].
  - by apply (kind_checker_incomplete_shape SubkindPattern s).
  - by apply (kind_checker_incomplete_shape RolePattern s).
  - by apply (kind_checker_incomplete_shape PhasePattern s).
  - change (p ∈ emitted_incomplete _validate_relator_pattern s) in H.
    rewrite relator_checker_generic in H.
    apply (checker_incomplete_delta _ _ relator_delta) in H as (c&_&_&H);
      [|apply relator_body_facts].
    revert p H. apply Forall_forall, relator_delta_shapes.
  - apply mode_checker_incomplete in H as (c&_&_&H).
    revert p H. apply Forall_forall, mode_delta_shapes.
  - apply rolemixin_checker_incomplete in H as (c&_&_&H).
    revert p H. apply Forall_forall, rolemixin_delta_shapes.
Qed.

(** The formatters never raise on the verdicts the checkers build. *)
Lemma format_complete_total repr_str str_dict p :
  complete_shape p → is_Some (_format_complete_pattern repr_str str_dict p).
Proof. intros [[]| | |]; eexists; reflexivity. Qed.

Lemma format_incomplete_total p :
  incomplete_shape p → is_Some (_format_incomplete_pattern p).
Proof. intros [[]| | | |]; eexists; reflexivity. Qed.

Lemma validate_all_state repr_str str_dict s :
  (validate_all repr_str str_dict s).2 =
  extend (reset s) (emitted run_checkers (reset s)).
Proof.
  rewrite validate_all_run. simpl. apply appender_run_checkers.
Qed.

Lemma validate_all_result repr_str str_dict s :
  (validate_all repr_str str_dict s).1 =
  format_results repr_str str_dict (validate_all repr_str str_dict s).2.
Proof. by rewrite validate_all_run. Qed.

Lemma same_inputs_reset s : same_inputs s (reset s).
Proof. by repeat split. Qed.

Lemma validate_all_complete repr_str str_dict s :
  complete_patterns (validate_all repr_str str_dict s).2 =
  emitted_complete run_checkers (reset s).
Proof. by rewrite validate_all_state. Qed.

Lemma validate_all_incomplete repr_str str_dict s :
  incomplete_patterns (validate_all repr_str str_dict s).2 =
  emitted_incomplete run_checkers (reset s).
Proof. by rewrite validate_all_state. Qed.

Lemma validate_all_inputs repr_str str_dict s :
  same_inputs s (validate_all repr_str str_dict s).2.
Proof. rewrite validate_all_state. by repeat split. Qed.

(** The outcome of [validate_all] is a function of the three input
    containers: whatever the accumulators hold beforehand is discarded. *)
Lemma validate_all_depends_on_inputs repr_str str_dict s s' :
  same_inputs s s' →
  (validate_all repr_str str_dict s).1 = (validate_all repr_str str_dict s').1 ∧
  complete_patterns (validate_all repr_str str_dict s).2
    = complete_patterns (validate_all repr_str str_dict s').2 ∧
  incomplete_patterns (validate_all repr_str str_dict s).2
    = incomplete_patterns (validate_all repr_str str_dict s').2.
Proof.
  intros Hs.
  assert (Hr : same_inputs (reset s) (reset s')).
  { eapply same_inputs_trans; [apply same_inputs_sym, same_inputs_reset|].
    eapply same_inputs_trans; [exact Hs|apply same_inputs_reset]. }
  destruct (proj2 appender_run_checkers _ _ Hr) as [Hem _].
  assert (Hc : complete_patterns (validate_all repr_str str_dict s).2
             = complete_patterns (validate_all repr_str str_dict s').2).
  { rewrite !validate_all_complete.
    change (emitted_complete ?m ?s) with (d_complete (emitted m s)).
    by rewrite Hem. }
  assert (Hi : incomplete_patterns (validate_all repr_str str_dict s).2
             = incomplete_patterns (validate_all repr_str str_dict s').2).
  { rewrite !validate_all_incomplete.
    change (emitted_incomplete ?m ?s) with (d_incomplete (emitted m s)).
    by rewrite Hem. }
  split; [|done].
  rewrite !validate_all_result. unfold format_results. by rewrite Hc, Hi.
Qed.

Lemma validate_all_returns repr_str str_dict s :
  is_Some (validate_all repr_str str_dict s).1.
Proof.
  rewrite validate_all_result. unfold format_results.
  destruct (mapM_is_Some_2 (_format_complete_pattern repr_str str_dict)
              (complete_patterns (validate_all repr_str str_dict s).2))
    as [fc ->].
  { apply Forall_forall. intros p Hp. apply format_complete_total.
    rewrite validate_all_complete in Hp.
    by apply run_checkers_complete_shape in Hp. }
  destruct (mapM_is_Some_2 _format_incomplete_pattern
              (incomplete_patterns (validate_all repr_str str_dict s).2))
    as [fi ->].
  { apply Forall_forall. intros p Hp. apply format_incomplete_total.
    rewrite validate_all_incomplete in Hp.
    by apply run_checkers_incomplete_shape in Hp. }
  simpl. eauto.
Qed.

(** C8.  [validate_all] is idempotent: on an unchanged model a second call
    returns the same formatted result as the first and leaves the same
    complete and incomplete sequences (same verdicts, same order).  The
    call does return a result, it does not change the three input
    containers, and nothing the accumulators held before the call is
    carried into its outcome. *)
Theorem validate_all_idempotent
    (repr_str : string → string) (str_dict : gmap string pyval → string)
    (s : PatternValidator) :
  let first := validate_all repr_str str_dict s in
  let second := validate_all repr_str str_dict first.2 in
  is_Some first.1 ∧
  second.1 = first.1 ∧
  complete_patterns second.2 = complete_patterns first.2 ∧
  incomplete_patterns second.2 = incomplete_patterns first.2 ∧
  same_inputs s first.2 ∧
  (∀ stale_complete stale_incomplete,
     let s' := {| classes := classes s; gensets := gensets s;
                  relations := relations s;
                  complete_patterns := stale_complete;
                  incomplete_patterns := stale_incomplete;
                  queries := queries s |} in
     (validate_all repr_str str_dict s').1 = first.1 ∧
     complete_patterns (validate_all repr_str str_dict s').2
       = complete_patterns first.2 ∧
     incomplete_patterns (validate_all repr_str str_dict s').2
       = incomplete_patterns first.2).
Proof.
  intros first second.
  split; [apply validate_all_returns|].
  destruct (validate_all_depends_on_inputs repr_str str_dict first.2 s)
    as (H1&H2&H3).
  { apply same_inputs_sym, validate_all_inputs. }
  split; [done|]. split; [done|]. split; [done|].
  split; [apply validate_all_inputs|].
  intros sc si s'. by apply validate_all_depends_on_inputs.
Qed.

(** * The summary *)

Lemma sum_counts_bump (m : gmap pyval nat) k :
  sum_counts (<[k := (default 0 (m !! k) + 1)%nat]> m) = (sum_counts m + 1)%nat.
Proof.
  unfold sum_counts. destruct (m !! k) as [v|] eqn:Hk; simpl.
  - rewrite <- insert_delete_eq.
    rewrite map_fold_insert_L; [|intros; lia|apply lookup_delete_eq].
    rewrite (map_fold_delete_L _ _ k v m); [lia|intros; lia|done].
  - rewrite map_fold_insert_L; [lia|intros; lia|done].
Qed.

Lemma type_count_cons t p patterns :
  type_count t (p :: patterns) =
  ((if decide (p !! "type" = Some t) then 1 else 0) + type_count t patterns)%nat.
Proof.
  unfold type_count. rewrite filter_cons. by destruct (decide _).
Qed.

Lemma count_by_type_loop_spec patterns (counts : gmap pyval nat) :
  Forall has_str_type patterns →
  ∃ m, count_by_type_loop patterns counts = Some m ∧
    (∀ k, default 0%nat (m !! k)
          = (default 0 (counts !! k) + type_count k patterns)%nat) ∧
    (∀ k, m !! k = None ↔ counts !! k = None ∧ type_count k patterns = 0%nat) ∧
    sum_counts m = (sum_counts counts + length patterns)%nat.
Proof.
  intros Hall. revert counts.
  induction Hall as [|p patterns [t Ht] Hall IH]; intros counts.
  - exists counts. split; [done|]. split; [|split].
    + intros k. unfold type_count. simpl. lia.
    + intros k. unfold type_count. simpl. naive_solver.
    + simpl. lia.
  - simpl. rewrite Ht. simpl.
    destruct (IH (<[VStr t := (default 0 (counts !! VStr t) + 1)%nat]> counts))
      as (m&Hm&Hval&Hnone&Hsum).
    exists m. split; [done|]. split; [|split].
    + intros k. rewrite Hval, type_count_cons, Ht, lookup_insert.
      destruct (decide (VStr t = k)) as [<-|Hne].
      * rewrite decide_True by done. simpl. lia.
      * rewrite decide_False by congruence. simpl. lia.
    + intros k. rewrite Hnone, type_count_cons, Ht, lookup_insert.
      destruct (decide (VStr t = k)) as [<-|Hne].
      * rewrite decide_True by done. simpl. split; [by intros [? _]|].
        intros [_ ?]. lia.
      * rewrite decide_False by congruence. simpl. done.
    + rewrite Hsum, sum_counts_bump. simpl. lia.
Qed.

Lemma count_by_type_spec patterns :
  Forall has_str_type patterns →
  ∃ m, _count_by_type patterns = Some m ∧
    (∀ t n, m !! t = Some n ↔ n = type_count t patterns ∧ (0 < n)%nat) ∧
    sum_counts m = length patterns.
Proof.
  intros Hall.
  destruct (count_by_type_loop_spec patterns ∅ Hall) as (m&Hm&Hval&Hnone&Hsum).
  exists m. split; [done|]. split.
  - intros t n. specialize (Hval t). specialize (Hnone t).
    rewrite lookup_empty in Hval, Hnone. simpl in Hval. split.
    + intros Hn. rewrite Hn in Hval. simpl in Hval. split; [done|].
      destruct (decide (n = 0%nat)) as [->|]; [|lia].
      assert (m !! t = None) by (apply Hnone; split; [done|lia]). congruence.
    + intros [-> Hpos]. destruct (m !! t) as [n'|] eqn:E.
      * simpl in Hval. by rewrite Hval.
      * destruct (proj1 Hnone eq_refl) as [_ H0]. lia.
  - rewrite Hsum. unfold sum_counts. by rewrite map_fold_empty.
Qed.

Lemma complete_shape_has_type p : complete_shape p → has_str_type p.
Proof. intros [[]| | |]; eexists; reflexivity. Qed.

Lemma incomplete_shape_has_type p : incomplete_shape p → has_str_type p.
Proof. intros [[]| | | |]; eexists; reflexivity. Qed.

(** C9.  After a run of [validate_all], [get_summary] returns a summary
    whose two totals are the lengths of the complete and incomplete
    sequences, and whose two maps tally the 'type' field: a type is a key
    exactly when some verdict of the sequence has it, its count is the
    number of those verdicts, and the counts of each map add up to the
    corresponding total. *)
Theorem summary_counts_partition
    (repr_str : string → string) (str_dict : gmap string pyval → string)
    (s : PatternValidator) :
  let s' := (validate_all repr_str str_dict s).2 in
  ∃ sm, (get_summary s').1 = Some sm ∧
    (get_summary s').2 = s' ∧
    total_complete sm = length (complete_patterns s') ∧
    total_incomplete sm = length (incomplete_patterns s') ∧
    (∀ t n, complete_by_type sm !! t = Some n ↔
            n = type_count t (complete_patterns s') ∧ (0 < n)%nat) ∧
    (∀ t n, incomplete_by_type sm !! t = Some n ↔
            n = type_count t (incomplete_patterns s') ∧ (0 < n)%nat) ∧
    Forall has_str_type (complete_patterns s') ∧
    Forall has_str_type (incomplete_patterns s') ∧
    sum_counts (complete_by_type sm) = total_complete sm ∧
    sum_counts (incomplete_by_type sm) = total_incomplete sm.
Proof.
  intros s'.
  assert (Hc : Forall has_str_type (complete_patterns s')).
  { apply Forall_forall. intros p Hp. apply complete_shape_has_type.
    unfold s' in Hp. rewrite validate_all_complete in Hp.
    by apply run_checkers_complete_shape in Hp. }
  assert (Hi : Forall has_str_type (incomplete_patterns s')).
  { apply Forall_forall. intros p Hp. apply incomplete_shape_has_type.
    unfold s' in Hp. rewrite validate_all_incomplete in Hp.
    by apply run_checkers_incomplete_shape in Hp. }
  destruct (count_by_type_spec _ Hc) as (cbt&Hcbt&Hckeys&Hcsum).
  destruct (count_by_type_spec _ Hi) as (ibt&Hibt&Hikeys&Hisum).
  exists {| total_complete := length (complete_patterns s');
            total_incomplete := length (incomplete_patterns s');
            complete_by_type := cbt; incomplete_by_type := ibt |}.
  split.
  { unfold get_summary, mbind, M_bind, gets, mret, M_ret. simpl.
    by rewrite Hcbt, Hibt. }
  split; [reflexivity|]. split; [reflexivity|]. split; [reflexivity|].
  split; [exact Hckeys|]. split; [exact Hikeys|].
  split; [exact Hc|]. split; [exact Hi|].
  split; [exact Hcsum|exact Hisum].
Qed.

(** * Further properties of the genset matcher *)

Lemma qualifies_weaken g gc sc sc' req req' forb forb' :
  sc' ⊆ sc → req' ⊆ req → forb' ⊆ forb →
  qualifies g gc sc req forb → qualifies g gc sc' req' forb'.
Proof.
  intros Hs Hr Hf (Hg&Hsc&Hreq&Hforb).
  split; [done|]. split; [|split].
  - intros x Hx. by apply Hsc, Hs.
  - intros x Hx. by apply Hreq, Hr.
  - intros m Hm Hin. by apply (Hforb m Hm), Hf.
Qed.

(** X1.  The scan stops at the first match: gensets declared after a match are
    never looked at, and when there is no match the scan goes on with the
    gensets that follow. *)
Theorem find_genset_loop_app
    (gs gs' : list Genset) (general_class : string)
    (specific_classes required forbidden : list string) :
  find_genset_loop (gs ++ gs') general_class specific_classes required forbidden =
  match find_genset_loop gs general_class specific_classes required forbidden with
  | Some g => Some g
  | None => find_genset_loop gs' general_class specific_classes required forbidden
  end.
Proof.
  induction gs as [|g gs IH]; [done|].
  destruct (qualifies_or_not g general_class specific_classes required forbidden).
  - rewrite <- app_comm_cons. by rewrite !find_genset_loop_hit.
  - rewrite <- app_comm_cons. by rewrite !find_genset_loop_miss.
Qed.

(** X2.  A smaller query is easier to satisfy: when the matcher finds a genset
    for a query, it also finds one for any query with fewer specific
    classes, fewer required and fewer forbidden modifiers. *)
Theorem find_genset_weaker_query
    (s : PatternValidator) (gc : string)
    (sc sc' req req' forb forb' : list string) (g : Genset) :
  sc' ⊆ sc → req' ⊆ req → forb' ⊆ forb →
  (_find_genset_for_classes gc sc (Some req) (Some forb) s).1 = Some g →
  is_Some (_find_genset_for_classes gc sc' (Some req') (Some forb') s).1.
Proof.
  intros Hs Hr Hf. rewrite !find_genset_result. simpl. intros Hfound.
  destruct (find_genset_loop (gensets s) gc sc' req' forb') eqn:E; [eauto|].
  apply find_genset_loop_none in E.
  apply find_genset_loop_some in Hfound as (pre&post&Hgs&Hq&_).
  rewrite Forall_forall in E. destruct (E g).
  - rewrite Hgs. apply elem_of_app. right. by constructor.
  - by eapply qualifies_weaken.
Qed.

Lemma find_genset_weaker_query_witness :
  let g := mkGenset "G" (Some "K") ["A"; "B"; "C"] ["disjoint"; "complete"] in
  let s := init (mkData None (Some [g]) None) in
  is_Some (_find_genset_for_classes "K" ["A"] (Some ["disjoint"]) (Some []) s).1.
Proof.
  intros g s.
  apply (find_genset_weaker_query s "K" ["A"; "B"] ["A"]
           ["disjoint"; "complete"] ["disjoint"] [] [] g).
  - intros x Hx. apply list_elem_of_singleton in Hx. subst x. by constructor.
  - intros x Hx. apply list_elem_of_singleton in Hx. subst x. by constructor.
  - done.
  - reflexivity.
Defined.

(** X3.  The name lists of a query are used as sets: two queries whose lists
    have the same elements (in any order, with any repetition) get the same
    answer. *)
Theorem find_genset_lists_as_sets
    (s : PatternValidator) (gc : string)
    (sc sc' req req' forb forb' : list string) :
  sc ≡ sc' → req ≡ req' → forb ≡ forb' →
  (_find_genset_for_classes gc sc (Some req) (Some forb) s).1 =
  (_find_genset_for_classes gc sc' (Some req') (Some forb') s).1.
Proof.
  intros Hs Hr Hf. rewrite !find_genset_result. simpl.
  assert (Hiff : ∀ g, qualifies g gc sc req forb ↔ qualifies g gc sc' req' forb').
  { intros g. split; apply qualifies_weaken; set_solver. }
  induction (gensets s) as [|g gs IH]; [done|].
  destruct (qualifies_or_not g gc sc req forb) as [Hq|Hq].
  - rewrite !find_genset_loop_hit; [done|by apply Hiff|done].
  - rewrite !find_genset_loop_miss; [done|by rewrite <- Hiff|done].
Qed.

Lemma find_genset_lists_as_sets_witness :
  let g := mkGenset "G" (Some "K") ["A"; "B"] ["disjoint"; "complete"] in
  let s := init (mkData None (Some [g]) None) in
  (_find_genset_for_classes "K" ["A"; "B"] (Some ["disjoint"; "complete"])
     (Some []) s).1 =
  (_find_genset_for_classes "K" ["B"; "A"; "B"] (Some ["complete"; "disjoint"])
     (Some []) s).1.
Proof.
  intros g s.
  apply (find_genset_lists_as_sets s "K"); [set_solver|set_solver|done].
Defined.

(** * How many verdicts a checker emits *)







(** * Verdicts of the kind-based checkers, by the matcher's answer *)

Lemma kind_delta_by_matcher pat kind s :
  (2 ≤ length (specializers (kp_specializer (policy pat)) (cls_name kind)
                 (classes s)))%nat →
  let names := cls_name <$> specializers (kp_specializer (policy pat))
                              (cls_name kind) (classes s) in
  let q := mkQuery (cls_name kind) names (default [] (kp_required (policy pat)))
             (default [] (kp_forbidden (policy pat))) in
  kind_pattern_delta (policy pat) kind s =
  match (_find_genset_for_classes (cls_name kind) names
           (kp_required (policy pat)) (kp_forbidden (policy pat)) s).1 with
  | Some g => mkDelta [kind_complete_verdict (policy pat) kind names g] [] [q]
  | None => mkDelta [] [kind_incomplete_verdict (policy pat) kind names] [q]
  end.
Proof.
  intros Hge names q. unfold kind_pattern_delta.
  rewrite decide_False by lia. by rewrite find_genset_result.
Qed.

(** X6.  For a kind with at least two specializers, the verdict follows the
    matcher: when the query (kind, collected names, the pattern's required
    and forbidden modifiers) finds a genset, the checker emits the Complete
    verdict naming the kind, the collected names and that genset, and no
    Incomplete verdict about the kind; when it finds none, the checker
    emits the Incomplete verdict and no Complete verdict about the kind. *)
Theorem kind_verdict_follows_matcher
    (pat : KindPattern) (s : PatternValidator) (kind : ModelClass) :
  kind ∈ classes s → cls_stereotype kind = "kind" →
  (2 ≤ length (specializers (kp_specializer (policy pat)) (cls_name kind)
                 (classes s)))%nat →
  let names := cls_name <$> specializers (kp_specializer (policy pat))
                              (cls_name kind) (classes s) in
  match (_find_genset_for_classes (cls_name kind) names
           (kp_required (policy pat)) (kp_forbidden (policy pat)) s).1 with
  | Some g =>
      let v := kind_complete_verdict (policy pat) kind names g in
      v ∈ emitted_complete (kind_checker pat) s ∧
      v !! "type" = Some (VStr (kp_type (policy pat))) ∧
      v !! "kind" = Some (VStr (cls_name kind)) ∧
      v !! kp_key (policy pat) = Some (VList names) ∧
      v !! "genset" = Some (VStr (gs_name g)) ∧
      v !! "line" = Some (VInt (cls_line kind)) ∧
      (∀ p, p ∈ emitted_incomplete (kind_checker pat) s →
            p !! "kind" ≠ Some (VStr (cls_name kind)))
  | None =>
      let v := kind_incomplete_verdict (policy pat) kind names in
      v ∈ emitted_incomplete (kind_checker pat) s ∧
      v !! "type" = Some (VStr (kp_type (policy pat))) ∧
      v !! "kind" = Some (VStr (cls_name kind)) ∧
      v !! kp_key (policy pat) = Some (VList names) ∧
      v !! "error" = Some (VStr (kp_error (policy pat))) ∧
      v !! "line" = Some (VInt (cls_line kind)) ∧
      (∀ p, p ∈ emitted_complete (kind_checker pat) s →
            p !! "kind" ≠ Some (VStr (cls_name kind)))
  end.
Proof.
  intros Hin Hst Hge names.
  pose proof (kind_delta_by_matcher pat kind s Hge) as Hd. cbv zeta in Hd.
  fold names in Hd. rewrite find_genset_result in Hd |- *.
  destruct (find_genset_loop _ _ _ _ _) as [g|] eqn:Hfind.
  - split.
    { apply kind_checker_complete. exists kind.
      split; [done|split; [done|]]. rewrite Hd. by constructor. }
    do 5 (split; [by destruct pat|]).
    intros p (c&_&_&Hp)%kind_checker_incomplete Hk.
    apply kind_delta_incomplete_inv in Hp as (_&->&Hnone).
    rewrite kind_incomplete_lookup_kind in Hk. injection Hk as Hk.
    rewrite Hk in Hnone. fold names in Hnone. congruence.
  - split.
    { apply kind_checker_incomplete. exists kind.
      split; [done|split; [done|]]. rewrite Hd. by constructor. }
    do 5 (split; [by destruct pat|]).
    intros p (c&_&_&Hp)%kind_checker_complete Hk.
    apply kind_delta_complete_inv in Hp as (_&g&->&Hsome).
    rewrite kind_complete_lookup_kind in Hk. injection Hk as Hk.
    rewrite Hk in Hsome. fold names in Hsome. congruence.
Qed.

Lemma kind_verdict_follows_matcher_witness :
  let K := mkClass "Person" "kind" [] None 1 in
  let A := mkClass "Man" "subkind" ["Person"] None 2 in
  let B := mkClass "Woman" "subkind" ["Person"] None 3 in
  let g := mkGenset "G1" (Some "Person") ["Man"; "Woman"]
             ["disjoint"; "complete"] in
  let s := init (mkData (Some [K; A; B]) (Some [g]) None) in
  kind_complete_verdict subkind_policy K ["Man"; "Woman"] g
    ∈ emitted_complete _validate_subkind_pattern s.
Proof.
  intros K A B g s.
  assert (HK : K ∈ classes s) by (vm_compute; by constructor).
  assert (Hst : cls_stereotype K = "kind") by reflexivity.
  assert (Hge : (2 ≤ length (specializers (kp_specializer (policy SubkindPattern))
                               (cls_name K) (classes s)))%nat)
    by (vm_compute; lia).
  exact (proj1 (kind_verdict_follows_matcher SubkindPattern s K HK Hst Hge)).
Defined.

(** X7.  A genset over the phases of a kind that carries 'disjoint' satisfies
    the Phase pattern whether or not it also carries 'complete': the Phase
    checker then emits a Complete verdict for the kind. *)
Theorem phase_pattern_accepts_disjoint_alone
    (s : PatternValidator) (kind : ModelClass) (g : Genset) :
  kind ∈ classes s → cls_stereotype kind = "kind" →
  let names := cls_name <$> specializers "phase" (cls_name kind) (classes s) in
  (2 ≤ length names)%nat →
  g ∈ gensets s → gs_general g = Some (cls_name kind) →
  names ⊆ gs_specifics g → "disjoint" ∈ gs_modifiers g →
  ∃ g', g' ∈ gensets s ∧ "disjoint" ∈ gs_modifiers g' ∧
        kind_complete_verdict phase_policy kind names g'
          ∈ emitted_complete _validate_phase_pattern s.
Proof.
  intros Hin Hst names Hlen Hg Hgen Hsub Hdis.
  assert (Hq : qualifies g (cls_name kind) names ["disjoint"] []).
  { split; [done|]. split; [done|]. split.
    - intros m Hm. apply list_elem_of_singleton in Hm. by subst m.
    - intros m _ Hm. by apply elem_of_nil in Hm. }
  destruct (find_genset_loop (gensets s) (cls_name kind) names ["disjoint"] [])
    as [g'|] eqn:Hfind.
  - exists g'.
    pose proof Hfind as (pre&post&Hgs&(_&_&Hreq&_)&_)%find_genset_loop_some.
    split; [rewrite Hgs; apply elem_of_app; right; by constructor|].
    split; [apply Hreq; by constructor|].
    apply (kind_checker_complete PhasePattern). exists kind.
    split; [done|split; [done|]]. unfold kind_pattern_delta. simpl.
    unfold names in Hlen. rewrite length_fmap in Hlen.
    rewrite decide_False by lia. fold names. rewrite Hfind. by constructor.
  - apply find_genset_loop_none in Hfind. rewrite Forall_forall in Hfind.
    by destruct (Hfind g Hg).
Qed.

Lemma phase_pattern_accepts_disjoint_alone_witness :
  let K := mkClass "Person" "kind" [] None 1 in
  let A := mkClass "Child" "phase" ["Person"] None 2 in
  let B := mkClass "Adult" "phase" ["Person"] None 3 in
  let g := mkGenset "Ages" (Some "Person") ["Child"; "Adult"] ["disjoint"] in
  let s := init (mkData (Some [K; A; B]) (Some [g]) None) in
  ∃ g', g' ∈ gensets s ∧ "disjoint" ∈ gs_modifiers g' ∧
        kind_complete_verdict phase_policy K ["Child"; "Adult"] g'
          ∈ emitted_complete _validate_phase_pattern s.
Proof.
  intros K A B g s.
  apply (phase_pattern_accepts_disjoint_alone s K g).
  - vm_compute. by constructor.
  - reflexivity.
  - vm_compute. lia.
  - vm_compute. by constructor.
  - reflexivity.
  - vm_compute. done.
  - vm_compute. by constructor.
Defined.

(** * The RoleMixin checker with enough roles *)

(** X8.  For a roleMixin with at least two specializing roles, the verdict
    follows the matcher queried with required modifiers 'disjoint' and
    'complete' and no forbidden one: a match gives the Complete verdict
    with the roleMixin, the role names and the genset's name; no match
    gives the Incomplete verdict whose error is 'Falta genset disjoint
    complete' and whose suggestion is the declaration template. *)
Theorem rolemixin_verdict_follows_matcher
    (s : PatternValidator) (rolemixin : ModelClass) :
  rolemixin ∈ classes s → cls_stereotype rolemixin = "roleMixin" →
  let names := cls_name <$> specializers "role" (cls_name rolemixin) (classes s) in
  (2 ≤ length names)%nat →
  let name := cls_name rolemixin in
  match (_find_genset_for_classes name names
           (Some ["disjoint"; "complete"]) None s).1 with
  | Some g =>
      let v := rolemixin_complete_verdict rolemixin names g in
      v ∈ emitted_complete _validate_rolemixin_pattern s ∧
      v !! "rolemixin" = Some (VStr name) ∧
      v !! "roles" = Some (VList names) ∧
      v !! "genset" = Some (VStr (gs_name g)) ∧
      v !! "line" = Some (VInt (cls_line rolemixin))
  | None =>
      let v := rolemixin_incomplete_verdict rolemixin names in
      v ∈ emitted_incomplete _validate_rolemixin_pattern s ∧
      v !! "rolemixin" = Some (VStr name) ∧
      v !! "roles" = Some (VList names) ∧
      v !! "error" = Some (VStr "Falta genset disjoint complete") ∧
      v !! "suggestion" = Some (VStr (
        "Adicione: disjoint complete genset " +:+ name +:+ "_Genset { general "
        +:+ name +:+ " specifics " +:+ join ", " names +:+ " }")) ∧
      v !! "line" = Some (VInt (cls_line rolemixin))
  end.
Proof.
  intros Hin Hst names Hlen name.
  assert (Hd : rolemixin_delta rolemixin s =
    match find_genset_loop (gensets s) name names ["disjoint"; "complete"] [] with
    | Some g => mkDelta [rolemixin_complete_verdict rolemixin names g] []
                  [mkQuery name names ["disjoint"; "complete"] []]
    | None => mkDelta [] [rolemixin_incomplete_verdict rolemixin names]
                [mkQuery name names ["disjoint"; "complete"] []]
    end).
  { unfold rolemixin_delta. unfold names in Hlen. rewrite length_fmap in Hlen.
    by rewrite decide_False by lia. }
  rewrite find_genset_result. simpl.
  destruct (find_genset_loop _ _ _ _ _) as [g|] eqn:Hfind.
  - split; [|done].
    apply rolemixin_checker_complete. exists rolemixin.
    split; [done|split; [done|]]. rewrite Hd. by constructor.
  - split; [|done].
    apply rolemixin_checker_incomplete. exists rolemixin.
    split; [done|split; [done|]]. rewrite Hd. by constructor.
Qed.

Lemma rolemixin_verdict_follows_matcher_witness :
  let RM := mkClass "Customer" "roleMixin" [] None 4 in
  let A := mkClass "PersonalCustomer" "role" ["Person"; "Customer"] None 6 in
  let B := mkClass "CorporateCustomer" "role" ["Company"; "Customer"] None 7 in
  let s := init (mkData (Some [RM; A; B]) None None) in
  rolemixin_incomplete_verdict RM ["PersonalCustomer"; "CorporateCustomer"]
    ∈ emitted_incomplete _validate_rolemixin_pattern s.
Proof.
  intros RM A B s.
  assert (HRM : RM ∈ classes s) by (vm_compute; by constructor).
  assert (Hst : cls_stereotype RM = "roleMixin") by reflexivity.
  assert (Hlen : (2 ≤ length (cls_name <$>
                      specializers "role" (cls_name RM) (classes s)))%nat)
    by (vm_compute; lia).
  exact (proj1 (rolemixin_verdict_follows_matcher s RM HRM Hst Hlen)).
Defined.

(** * The Mode checker, Complete verdicts *)

Lemma mode_checker_complete s p :
  p ∈ emitted_complete _validate_mode_pattern s ↔
  ∃ c, c ∈ classes s ∧ cls_stereotype c = "mode" ∧
       p ∈ d_complete (mode_delta c).
Proof.
  rewrite mode_checker_generic.
  apply (checker_complete_delta _ _ (λ c _, mode_delta c)).
  apply mode_body_facts.
Qed.

(** X9.  The Mode checker emits a Complete verdict exactly for the modes whose
    body has a member of stereotype 'characterization' and a member of
    stereotype 'externalDependence', wherever they stand in the body and
    whatever else it holds; the verdict carries the mode's name and line. *)
Theorem mode_complete_iff_both_members
    (s : PatternValidator) (p : gmap string pyval) :
  p ∈ emitted_complete _validate_mode_pattern s ↔
  ∃ mode, mode ∈ classes s ∧ cls_stereotype mode = "mode" ∧
    has_member "characterization" mode = true ∧
    has_member "externalDependence" mode = true ∧
    p = dict [("type", VStr "Mode Pattern");
              ("mode", VStr (cls_name mode));
              ("line", VInt (cls_line mode))].
Proof.
  rewrite mode_checker_complete. split.
  - intros (c&Hin&Hst&Hp). exists c. split; [done|split; [done|]].
    unfold mode_delta in Hp. rewrite mode_scan_spec in Hp. simpl in Hp.
    destruct (has_member "characterization" c),
             (has_member "externalDependence" c); simpl in Hp;
      try (by apply elem_of_nil in Hp).
    apply list_elem_of_singleton in Hp. by subst p.
  - intros (c&Hin&Hst&Hc&He&->). exists c. split; [done|split; [done|]].
    unfold mode_delta. rewrite mode_scan_spec. simpl. rewrite Hc, He. simpl.
    by constructor.
Qed.

(** * What every verdict of a checker carries *)

Lemma relator_checker_delta_complete s p :
  p ∈ emitted_complete _validate_relator_pattern s ↔
  ∃ c, c ∈ classes s ∧ cls_stereotype c = "relator" ∧
       p ∈ d_complete (relator_delta c s).
Proof.
  rewrite relator_checker_generic.
  apply (checker_complete_delta _ _ relator_delta), relator_body_facts.
Qed.

Lemma relator_checker_delta_incomplete s p :
  p ∈ emitted_incomplete _validate_relator_pattern s ↔
  ∃ c, c ∈ classes s ∧ cls_stereotype c = "relator" ∧
       p ∈ d_incomplete (relator_delta c s).
Proof.
  rewrite relator_checker_generic.
  apply (checker_incomplete_delta _ _ relator_delta), relator_body_facts.
Qed.

(** X10.  Each checker stamps its own pattern type on every verdict it emits,
    Complete or Incomplete, and the verdict's line is the declaration line
    of a class of the checker's stereotype ('kind' for Subkind, Role and
    Phase). *)
Theorem verdicts_carry_checker_type_and_line
    (s : PatternValidator) (p : gmap string pyval) :
  (∀ pat, p ∈ emitted_complete (kind_checker pat) s ∨
          p ∈ emitted_incomplete (kind_checker pat) s →
     p !! "type" = Some (VStr (kp_type (policy pat))) ∧
     ∃ c, c ∈ classes s ∧ cls_stereotype c = "kind" ∧
          p !! "line" = Some (VInt (cls_line c))) ∧
  (p ∈ emitted_complete _validate_relator_pattern s ∨
   p ∈ emitted_incomplete _validate_relator_pattern s →
     p !! "type" = Some (VStr "Relator Pattern") ∧
     ∃ c, c ∈ classes s ∧ cls_stereotype c = "relator" ∧
          p !! "line" = Some (VInt (cls_line c))) ∧
  (p ∈ emitted_complete _validate_mode_pattern s ∨
   p ∈ emitted_incomplete _validate_mode_pattern s →
     p !! "type" = Some (VStr "Mode Pattern") ∧
     ∃ c, c ∈ classes s ∧ cls_stereotype c = "mode" ∧
          p !! "line" = Some (VInt (cls_line c))) ∧
  (p ∈ emitted_complete _validate_rolemixin_pattern s ∨
   p ∈ emitted_incomplete _validate_rolemixin_pattern s →
     p !! "type" = Some (VStr "RoleMixin Pattern") ∧
     ∃ c, c ∈ classes s ∧ cls_stereotype c = "roleMixin" ∧
          p !! "line" = Some (VInt (cls_line c))).
Proof.
  split; [|split; [|split]].
  - intros pat [(c&Hin&Hst&Hp)%kind_checker_complete
               |(c&Hin&Hst&Hp)%kind_checker_incomplete].
    + apply kind_delta_complete_inv in Hp as (_&g&->&_).
      split; [by destruct pat|]. exists c.
      split; [done|split; [done|by destruct pat]].
    + apply kind_delta_incomplete_inv in Hp as (_&->&_).
      split; [by destruct pat|]. exists c.
      split; [done|split; [done|by destruct pat]].
  - intros [(c&Hin&Hst&Hp)%relator_checker_delta_complete
           |(c&Hin&Hst&Hp)%relator_checker_delta_incomplete];
      unfold relator_delta in Hp; destruct (decide _);
      cbn [d_complete d_incomplete] in Hp;
      try (by apply elem_of_nil in Hp);
      apply list_elem_of_singleton in Hp; subst p;
      (split; [done|exists c; by split]).
  - intros [(c&Hin&Hst&Hp)%mode_checker_complete
           |(c&Hin&Hst&Hp)%mode_checker_incomplete];
      unfold mode_delta in Hp; destruct (_ && _);
      cbn [d_complete d_incomplete] in Hp;
      try (by apply elem_of_nil in Hp);
      apply list_elem_of_singleton in Hp; subst p;
      (split; [done|exists c; by split]).
  - intros [(c&Hin&Hst&Hp)%rolemixin_checker_complete
           |(c&Hin&Hst&Hp)%rolemixin_checker_incomplete];
      unfold rolemixin_delta in Hp;
      (destruct (decide _); [|destruct (find_genset_loop _ _ _ _ _)]);
      cbn [d_complete d_incomplete] in Hp;
      try (by apply elem_of_nil in Hp);
      apply list_elem_of_singleton in Hp; subst p;
      (split; [done|exists c; by split]).
Qed.

(** * Which inputs a checker reads *)

Lemma emitted_checker_ext stereotype body
    (delta : ModelClass → PatternValidator → Delta) s s' :
  (∀ c, appender (body c) ∧ ∀ s, emitted (body c) s = delta c s) →
  classes s = classes s' →
  (∀ c, delta c s = delta c s') →
  emitted (checker stereotype body) s = emitted (checker stereotype body) s'.
Proof.
  intros Hb Hc Hd. rewrite !emitted_checker by apply Hb. rewrite <- Hc.
  induction (filter _ (classes s)) as [|c l IH]; [done|].
  simpl. by rewrite IH, !(proj2 (Hb c)), Hd.
Qed.

(** X11.  The Mode checker reads the classes only; the Relator checker reads the
    classes and the relations, never the gensets; the Subkind, Role, Phase
    and RoleMixin checkers read the classes and the gensets, never the
    relations.  Two models that agree on what a checker reads get the same
    verdicts from it. *)
Theorem checkers_read_only_their_inputs (s s' : PatternValidator) :
  classes s = classes s' →
  emitted _validate_mode_pattern s = emitted _validate_mode_pattern s' ∧
  (relations s = relations s' →
   emitted _validate_relator_pattern s = emitted _validate_relator_pattern s') ∧
  (gensets s = gensets s' →
   (∀ pat, emitted (kind_checker pat) s = emitted (kind_checker pat) s') ∧
   emitted _validate_rolemixin_pattern s
     = emitted _validate_rolemixin_pattern s').
Proof.
  intros Hc. split; [|split].
  - rewrite mode_checker_generic.
    by apply (emitted_checker_ext _ _ (λ c _, mode_delta c));
      [apply mode_body_facts| |].
  - intros Hr. rewrite relator_checker_generic.
    apply (emitted_checker_ext _ _ relator_delta);
      [apply relator_body_facts|done|].
    intros c. unfold relator_delta. by rewrite Hr.
  - intros Hg. split.
    + intros pat. rewrite kind_checker_generic.
      apply (emitted_checker_ext _ _ (kind_pattern_delta (policy pat)));
        [intros c; apply kind_pattern_body_facts|done|].
      intros c. unfold kind_pattern_delta. by rewrite Hc, Hg.
    + rewrite rolemixin_checker_generic.
      apply (emitted_checker_ext _ _ rolemixin_delta);
        [apply rolemixin_body_facts|done|].
      intros c. unfold rolemixin_delta. by rewrite Hc, Hg.
Qed.

Lemma checkers_read_only_their_inputs_witness :
  let Mo := mkClass "Skill" "mode" []
              (Some [mkMember (Some "characterization")]) 12 in
  let g := mkGenset "G" (Some "K") ["A"; "B"] ["disjoint"] in
  let s := init (mkData (Some [Mo]) None None) in
  let s' := init (mkData (Some [Mo]) (Some [g])
                    (Some [mkRelation true (Some "mediation")])) in
  emitted _validate_mode_pattern s = emitted _validate_mode_pattern s'.
Proof.
  intros Mo g s s'.
  exact (proj1 (checkers_read_only_their_inputs s s' eq_refl)).
Defined.

(** * Order and content of the accumulators after [validate_all] *)

Lemma emitted_reset {A} (m : M A) s :
  appender m → emitted m (reset s) = emitted m s.
Proof.
  intros Hm. symmetry. apply (proj2 Hm), same_inputs_reset.
Qed.

(** X12.  After [validate_all] the two accumulators hold the verdicts of the six
    checkers in the fixed order Subkind, Role, Phase, Relator, Mode,
    RoleMixin, each block being what that checker emits on the model. *)
Theorem validate_all_checker_order
    (repr_str : string → string) (str_dict : gmap string pyval → string)
    (s : PatternValidator) :
  let s' := (validate_all repr_str str_dict s).2 in
  complete_patterns s' =
    emitted_complete _validate_subkind_pattern s ++
    emitted_complete _validate_role_pattern s ++
    emitted_complete _validate_phase_pattern s ++
    emitted_complete _validate_relator_pattern s ++
    emitted_complete _validate_mode_pattern s ++
    emitted_complete _validate_rolemixin_pattern s ∧
  incomplete_patterns s' =
    emitted_incomplete _validate_subkind_pattern s ++
    emitted_incomplete _validate_role_pattern s ++
    emitted_incomplete _validate_phase_pattern s ++
    emitted_incomplete _validate_relator_pattern s ++
    emitted_incomplete _validate_mode_pattern s ++
    emitted_incomplete _validate_rolemixin_pattern s.
Proof.
  intros s'. unfold s'.
  rewrite validate_all_complete, validate_all_incomplete.
  change (emitted_complete run_checkers (reset s))
    with (d_complete (emitted run_checkers (reset s))).
  change (emitted_incomplete run_checkers (reset s))
    with (d_incomplete (emitted run_checkers (reset s))).
  rewrite emitted_run_checkers.
  rewrite (emitted_reset _validate_subkind_pattern s (appender_kind_checker SubkindPattern)).
  rewrite (emitted_reset _validate_role_pattern s (appender_kind_checker RolePattern)).
  rewrite (emitted_reset _validate_phase_pattern s (appender_kind_checker PhasePattern)).
  rewrite (emitted_reset _ s appender_relator_checker).
  rewrite (emitted_reset _ s appender_mode_checker).
  rewrite (emitted_reset _ s appender_rolemixin_checker).
  done.
Qed.

(** X13.  A model without classes (in particular an analysis result without the
    'classes' key) gives no verdict at all: [validate_all] returns two
    empty lists, whatever the gensets and relations are. *)
Theorem validate_all_without_classes
    (repr_str : string → string) (str_dict : gmap string pyval → string)
    (s : PatternValidator) :
  classes s = [] →
  (validate_all repr_str str_dict s).1
    = Some {| complete := []; incomplete := [] |} ∧
  complete_patterns (validate_all repr_str str_dict s).2 = [] ∧
  incomplete_patterns (validate_all repr_str str_dict s).2 = [].
Proof.
  intros Hc.
  assert (He : ∀ st body, (∀ c, appender (body c)) →
            emitted (checker st body) (reset s) = dempty).
  { intros st body Hb. rewrite emitted_checker by done. simpl. by rewrite Hc. }
  assert (Hall : emitted run_checkers (reset s) = dempty).
  { rewrite emitted_run_checkers.
    rewrite subkind_checker_generic, role_checker_generic,
      phase_checker_generic, relator_checker_generic, mode_checker_generic,
      rolemixin_checker_generic.
    rewrite !He;
      try (intros c; first [apply appender_kind_pattern_body
                           |apply relator_body_facts|apply mode_body_facts
                           |apply rolemixin_body_facts]).
    done. }
  assert (H1 : complete_patterns (validate_all repr_str str_dict s).2 = []).
  { rewrite validate_all_complete.
    change (emitted_complete ?m ?s) with (d_complete (emitted m s)).
    by rewrite Hall. }
  assert (H2 : incomplete_patterns (validate_all repr_str str_dict s).2 = []).
  { rewrite validate_all_incomplete.
    change (emitted_incomplete ?m ?s) with (d_incomplete (emitted m s)).
    by rewrite Hall. }
  split; [|done].
  rewrite validate_all_result. unfold format_results. by rewrite H1, H2.
Qed.

Lemma validate_all_without_classes_witness :
  let g := mkGenset "G" (Some "K") ["A"; "B"] ["disjoint"] in
  let s := init (mkData None (Some [g])
                   (Some [mkRelation true (Some "mediation")])) in
  (validate_all (λ x, x) (λ _, "") s).1
    = Some {| complete := []; incomplete := [] |}.
Proof.
  intros g s.
  exact (proj1 (validate_all_without_classes (λ x, x) (λ _, "") s eq_refl)).
Defined.

(** * The formatters *)

(** X14.  [_format_incomplete_pattern] raises exactly when 'type', 'error' or
    'suggestion' is missing; otherwise it returns a dictionary with the
    four keys 'pattern', 'error', 'suggestion' and 'line' and nothing
    else, the first three copied from the verdict and 'line' copied too or
    set to '-' when the verdict has none. *)
Theorem format_incomplete_copies_or_raises (p : gmap string pyval) :
  match _format_incomplete_pattern p with
  | Some f =>
      ∃ t e sg, p !! "type" = Some t ∧ p !! "error" = Some e ∧
        p !! "suggestion" = Some sg ∧
        f !! "pattern" = Some t ∧ f !! "error" = Some e ∧
        f !! "suggestion" = Some sg ∧
        f !! "line" = Some (default (VStr "-") (p !! "line")) ∧
        ∀ k, is_Some (f !! k) ↔ k ∈ ["pattern"; "error"; "suggestion"; "line"]
  | None =>
      p !! "type" = None ∨ p !! "error" = None ∨ p !! "suggestion" = None
  end.
Proof.
  unfold _format_incomplete_pattern.
  destruct (p !! "type") as [t|]; simpl; [|by left].
  destruct (p !! "error") as [e|]; simpl; [|right; by left].
  destruct (p !! "suggestion") as [sg|]; simpl; [|right; by right].
  exists t, e, sg. do 7 (split; [done|]).
  intros k. unfold dict. simpl.
  rewrite <- elem_of_dom, !dom_insert_L, dom_empty_L.
  rewrite !elem_of_cons, elem_of_nil. set_solver.
Qed.

(** X15.  Whatever the verdict, a result of [_format_complete_pattern] has its
    'pattern' equal to the verdict's 'type', its 'line' equal to the
    verdict's line or to '-' when there is none, and a string under
    'details'; the formatter raises when 'type' is missing or is an int. *)
Theorem format_complete_result_fields
    (repr_str : string → string) (str_dict : gmap string pyval → string)
    (p : gmap string pyval) :
  match _format_complete_pattern repr_str str_dict p with
  | Some f =>
      f !! "pattern" = p !! "type" ∧
      f !! "line" = Some (default (VStr "-") (p !! "line")) ∧
      (∃ d, f !! "details" = Some (VStr d)) ∧
      ∀ k, is_Some (f !! k) ↔ k ∈ ["pattern"; "details"; "line"]
  | None => True
  end ∧
  (p !! "type" = None → _format_complete_pattern repr_str str_dict p = None) ∧
  (∀ z, p !! "type" = Some (VInt z) →
        _format_complete_pattern repr_str str_dict p = None).
Proof.
  split; [|split].
  - destruct (_format_complete_pattern repr_str str_dict p) as [f|] eqn:E;
      [|done].
    unfold _format_complete_pattern in E.
    apply bind_Some in E as (pt&Hpt&E). apply bind_Some in E as (d&_&E).
    injection E as <-. rewrite Hpt.
    split; [done|]. split; [done|]. split; [by exists d|].
    intros k. unfold dict. simpl.
    rewrite <- elem_of_dom, !dom_insert_L, dom_empty_L.
    rewrite !elem_of_cons, elem_of_nil. set_solver.
  - intros Hp. unfold _format_complete_pattern. by rewrite Hp.
  - intros z Hp. unfold _format_complete_pattern. by rewrite Hp.
Qed.

(** X16.  The formatter describes each Complete verdict by its own pattern.  In
    particular a RoleMixin verdict, whose type contains the word 'Role',
    is described as a RoleMixin and not as a Role pattern. *)
Theorem format_complete_details
    (repr_str : string → string) (str_dict : gmap string pyval → string)
    (c : ModelClass) (names : list string) (g : Genset) (n : nat) :
  let fmt := _format_complete_pattern repr_str str_dict in
  let listed := py_str repr_str (VList names) in
  (∀ pat, fmt (kind_complete_verdict (policy pat) c names g) = Some (dict [
     ("pattern", VStr (kp_type (policy pat)));
     ("details", VStr ("Kind '" +:+ cls_name c +:+ "' com "
        +:+ match pat with
            | SubkindPattern => "subkinds "
            | RolePattern => "roles "
            | PhasePattern => "phases "
            end +:+ listed +:+ " e genset '" +:+ gs_name g +:+ "'"));
     ("line", VInt (cls_line c))])) ∧
  fmt (relator_complete_verdict c n) = Some (dict [
     ("pattern", VStr "Relator Pattern");
     ("details", VStr ("Relator '" +:+ cls_name c +:+ "' com "
        +:+ str_int (Z.of_nat n) +:+ " mediações"));
     ("line", VInt (cls_line c))]) ∧
  fmt (mode_complete_verdict c) = Some (dict [
     ("pattern", VStr "Mode Pattern");
     ("details", VStr ("Mode '" +:+ cls_name c
        +:+ "' com @characterization e @externalDependence"));
     ("line", VInt (cls_line c))]) ∧
  fmt (rolemixin_complete_verdict c names g) = Some (dict [
     ("pattern", VStr "RoleMixin Pattern");
     ("details", VStr ("RoleMixin '" +:+ cls_name c +:+ "' com roles "
        +:+ listed +:+ " e genset '" +:+ gs_name g +:+ "'"));
     ("line", VInt (cls_line c))]).
Proof.
  intros fmt listed. split; [|split; [|split]].
  - by intros [].
  - reflexivity.
  - reflexivity.
  - reflexivity.
Qed.

(** X17.  A verdict whose type names none of the six patterns is described by
    the plain rendering of the whole dictionary. *)
Theorem format_complete_unknown_type
    (repr_str : string → string) (str_dict : gmap string pyval → string)
    (p : gmap string pyval) (t : string) :
  p !! "type" = Some (VStr t) →
  str_contains "Subkind" t = false → str_contains "Role" t = false →
  str_contains "Phase" t = false → str_contains "Relator" t = false →
  str_contains "Mode" t = false → str_contains "RoleMixin" t = false →
  _format_complete_pattern repr_str str_dict p = Some (dict [
    ("pattern", VStr t);
    ("details", VStr (str_dict p));
    ("line", default (VStr "-") (p !! "line"))]).
Proof.
  intros Hp H1 H2 H3 H4 H5 H6. unfold _format_complete_pattern.
  rewrite Hp. simpl. by rewrite H1, H2, H3, H4, H5, H6.
Qed.

Lemma format_complete_unknown_type_witness :
  let p := dict [("type", VStr "Kind Pattern"); ("kind", VStr "K")] in
  _format_complete_pattern (λ x, x) (λ _, "{...}") p = Some (dict [
    ("pattern", VStr "Kind Pattern");
    ("details", VStr "{...}");
    ("line", VStr "-")]).
Proof.
  intros p.
  apply (format_complete_unknown_type (λ x, x) (λ _, "{...}") p "Kind Pattern");
    reflexivity.
Defined.

(** X18.  The two lists returned by [validate_all] are the verdicts of the two
    accumulators, formatted one by one in the same order. *)
Theorem validate_all_formats_in_order
    (repr_str : string → string) (str_dict : gmap string pyval → string)
    (s : PatternValidator) :
  let s' := (validate_all repr_str str_dict s).2 in
  ∃ r, (validate_all repr_str str_dict s).1 = Some r ∧
    Forall2 (λ p f, _format_complete_pattern repr_str str_dict p = Some f)
            (complete_patterns s') (complete r) ∧
    Forall2 (λ p f, _format_incomplete_pattern p = Some f)
            (incomplete_patterns s') (incomplete r) ∧
    length (complete r) = length (complete_patterns s') ∧
    length (incomplete r) = length (incomplete_patterns s').
Proof.
  intros s'. destruct (validate_all_returns repr_str str_dict s) as [r Hr].
  exists r. split; [done|].
  rewrite validate_all_result in Hr. unfold format_results in Hr. fold s' in Hr.
  apply bind_Some in Hr as (fc&Hfc&Hr). apply bind_Some in Hr as (fi&Hfi&Hr).
  injection Hr as <-. simpl.
  apply mapM_Some in Hfc. apply mapM_Some in Hfi.
  split; [done|]. split; [done|].
  split; symmetry; by eapply Forall2_length.
Qed.

(** * The tally, on any sequence of verdicts *)

Lemma count_by_type_loop_none patterns (counts : gmap pyval nat) :
  count_by_type_loop patterns counts = None ↔
  Exists (λ p, ¬ hashable_type p) patterns.
Proof.
  revert counts. induction patterns as [|p patterns IH]; intros counts; simpl.
  - split; [done|]. by intros ?%Exists_nil.
  - rewrite Exists_cons. destruct (p !! "type") as [t|] eqn:Ht; simpl.
    + destruct t as [t|z|l].
      * rewrite IH. split; [by right|].
        intros [Hbad|?]; [|done]. destruct Hbad. exists (VStr t). by split.
      * rewrite IH. split; [by right|].
        intros [Hbad|?]; [|done]. destruct Hbad. exists (VInt z). by split.
      * split; [|done]. intros _. left. intros (t&Ht'&Hl).
        rewrite Ht in Ht'. injection Ht' as <-. by destruct (Hl l).
    + split; [|done]. intros _. left. intros (t&Ht'&_). congruence.
Qed.

Lemma count_by_type_loop_hashable patterns (counts : gmap pyval nat) m :
  count_by_type_loop patterns counts = Some m →
  (∀ k, default 0%nat (m !! k)
        = (default 0 (counts !! k) + type_count k patterns)%nat) ∧
  (∀ k, m !! k = None ↔ counts !! k = None ∧ type_count k patterns = 0%nat) ∧
  sum_counts m = (sum_counts counts + length patterns)%nat.
Proof.
  revert counts. induction patterns as [|p patterns IH]; intros counts; simpl.
  - intros [= <-]. split; [|split].
    + intros k. unfold type_count. simpl. lia.
    + intros k. unfold type_count. simpl. split; [done|by intros [? _]].
    + lia.
  - destruct (p !! "type") as [t|] eqn:Ht; simpl; [|done].
    intros Hloop.
    assert (Hstep : count_by_type_loop patterns
              (<[t := (default 0 (counts !! t) + 1)%nat]> counts) = Some m)
      by (by destruct t).
    destruct (IH _ Hstep) as (Hval&Hnone&Hsum).
    split; [|split].
    + intros k. rewrite Hval, type_count_cons, Ht, lookup_insert.
      destruct (decide (t = k)) as [<-|Hne].
      * rewrite decide_True by done. simpl. lia.
      * rewrite decide_False by congruence. simpl. lia.
    + intros k. rewrite Hnone, type_count_cons, Ht, lookup_insert.
      destruct (decide (t = k)) as [<-|Hne].
      * rewrite decide_True by done. simpl. split; [by intros [? _]|].
        intros [_ ?]. lia.
      * rewrite decide_False by congruence. simpl. done.
    + rewrite Hsum, sum_counts_bump. lia.
Qed.

(** X19.  [_count_by_type] raises exactly when some verdict has no 'type' or has
    a list as type.  Otherwise its result has one key per type that
    occurs, mapped to the number of verdicts of that type, and the counts
    add up to the length of the sequence. *)
Theorem count_by_type_tallies_or_raises (patterns : list (gmap string pyval)) :
  match _count_by_type patterns with
  | Some m =>
      Forall hashable_type patterns ∧
      (∀ t n, m !! t = Some n ↔ n = type_count t patterns ∧ (0 < n)%nat) ∧
      sum_counts m = length patterns
  | None => Exists (λ p, ¬ hashable_type p) patterns
  end.
Proof.
  unfold _count_by_type.
  destruct (count_by_type_loop patterns ∅) as [m|] eqn:E;
    [|by apply count_by_type_loop_none in E].
  split.
  { apply Forall_forall. intros p Hp.
    destruct (decide (is_Some (p !! "type"))) as [[t Ht]|Hno].
    - destruct t as [t|z|l].
      + exists (VStr t). by split.
      + exists (VInt z). by split.
      + assert (count_by_type_loop patterns ∅ = None); [|congruence].
        apply count_by_type_loop_none, Exists_exists. exists p.
        split; [done|]. intros (t&Ht'&Hl). rewrite Ht in Ht'.
        injection Ht' as <-. by destruct (Hl l).
    - assert (count_by_type_loop patterns ∅ = None); [|congruence].
      apply count_by_type_loop_none, Exists_exists. exists p.
      split; [done|]. intros (t&Ht'&_). destruct Hno. by exists t. }
  destruct (count_by_type_loop_hashable _ _ _ E) as (Hval&Hnone&Hsum).
  split.
  - intros t n. specialize (Hval t). specialize (Hnone t).
    rewrite lookup_empty in Hval, Hnone. simpl in Hval. split.
    + intros Hn. rewrite Hn in Hval. simpl in Hval. split; [done|].
      destruct (decide (n = 0%nat)) as [->|]; [|lia].
      assert (m !! t = None) by (apply Hnone; split; [done|lia]). congruence.
    + intros [-> Hpos]. destruct (m !! t) as [n'|] eqn:E'.
      * simpl in Hval. by rewrite Hval.
      * destruct (proj1 Hnone eq_refl) as [_ H0]. lia.
  - rewrite Hsum. unfold sum_counts. by rewrite map_fold_empty.
Qed.

(** * The summary and the returned lists *)

Lemma validate_all_result_lengths repr_str str_dict s :
  let s' := (validate_all repr_str str_dict s).2 in
  ∃ r, (validate_all repr_str str_dict s).1 = Some r ∧
    length (complete r) = length (complete_patterns s') ∧
    length (incomplete r) = length (incomplete_patterns s').
Proof.
  intros s'. destruct (validate_all_returns repr_str str_dict s) as [r Hr].
  exists r. split; [done|].
  rewrite validate_all_result in Hr. unfold format_results in Hr. fold s' in Hr.
  apply bind_Some in Hr as (fc&Hfc&Hr). apply bind_Some in Hr as (fi&Hfi&Hr).
  injection Hr as <-. simpl.
  apply mapM_Some, Forall2_length in Hfc. apply mapM_Some, Forall2_length in Hfi.
  by split.
Qed.

Lemma summary_counts_partition_aux repr_str str_dict s :
  let s' := (validate_all repr_str str_dict s).2 in
  ∃ sm, (get_summary s').1 = Some sm ∧
    total_complete sm = length (complete_patterns s') ∧
    total_incomplete sm = length (incomplete_patterns s').
Proof.
  intros s'.
  assert (Hc : Forall has_str_type (complete_patterns s')).
  { apply Forall_forall. intros p Hp. apply complete_shape_has_type.
    unfold s' in Hp. rewrite validate_all_complete in Hp.
    by apply run_checkers_complete_shape in Hp. }
  assert (Hi : Forall has_str_type (incomplete_patterns s')).
  { apply Forall_forall. intros p Hp. apply incomplete_shape_has_type.
    unfold s' in Hp. rewrite validate_all_incomplete in Hp.
    by apply run_checkers_incomplete_shape in Hp. }
  destruct (count_by_type_spec _ Hc) as (cbt&Hcbt&_).
  destruct (count_by_type_spec _ Hi) as (ibt&Hibt&_).
  exists {| total_complete := length (complete_patterns s');
            total_incomplete := length (incomplete_patterns s');
            complete_by_type := cbt; incomplete_by_type := ibt |}.
  split; [|done].
  unfold get_summary, mbind, M_bind, gets, mret, M_ret. simpl.
  by rewrite Hcbt, Hibt.
Qed.

(** X20.  [get_summary] leaves the validator as it is.  After [validate_all] its
    two totals are the lengths of the two lists that [validate_all]
    returned; on a validator that has not run yet, both totals are 0 and
    both tallies are empty. *)
Theorem summary_matches_returned_lists
    (repr_str : string → string) (str_dict : gmap string pyval → string)
    (s : PatternValidator) (analysis_data : AnalysisData) :
  (get_summary s).2 = s ∧
  (∃ r sm, (validate_all repr_str str_dict s).1 = Some r ∧
     (get_summary (validate_all repr_str str_dict s).2).1 = Some sm ∧
     total_complete sm = length (complete r) ∧
     total_incomplete sm = length (incomplete r)) ∧
  (get_summary (init analysis_data)).1
    = Some {| total_complete := 0; total_incomplete := 0;
              complete_by_type := ∅; incomplete_by_type := ∅ |}.
Proof.
  split; [done|]. split; [|done].
  destruct (validate_all_result_lengths repr_str str_dict s) as (r&Hr&Hlc&Hli).
  destruct (summary_counts_partition_aux repr_str str_dict s)
    as (sm&Hsm&Htc&Hti).
  exists r, sm. split; [done|]. split; [done|]. by rewrite Htc, Hti, Hlc, Hli.
Qed.

(** X21.  The checkers only append: run a second time without the reset that
    opens [validate_all], the six checkers add the same verdicts once more
    after the ones already there. *)
Theorem checkers_accumulate_without_reset (s : PatternValidator) :
  let twice := ((run_checkers ;; run_checkers) s).2 in
  complete_patterns twice =
    complete_patterns s ++ emitted_complete run_checkers s
                        ++ emitted_complete run_checkers s ∧
  incomplete_patterns twice =
    incomplete_patterns s ++ emitted_incomplete run_checkers s
                          ++ emitted_incomplete run_checkers s ∧
  classes twice = classes s ∧ gensets twice = gensets s ∧
  relations twice = relations s.
Proof.
  intros twice. unfold twice.
  rewrite (proj1 (appender_seq _ _ appender_run_checkers appender_run_checkers)).
  rewrite emitted_seq by apply appender_run_checkers.
  by repeat split.
Qed.
